(** * nest-storage-lib: the S3 storage gateway

    A shallow embedding of [S3StorageService] (the class implementing the
    [StorageService] interface) and of the collaborators it talks to: the
    S3 client, the presigner and the NestJS logger.

    The service is asynchronous glue code.  It is embedded in a small
    state-and-rejection monad [Async]:
    - a rejected promise / thrown value is the [Rejected] branch of
      [Settled];
    - the remote object store, the log sink and the journal of requests
      handed to the SDK are components of an explicit [State];
    - [Promise.all] over a batch is a scheduler: the remote side handles the
      requests of a batch in an order the service does not control, and the
      promises settle in an order it does not control either.  Both orders
      are arguments ([Schedule]) and every theorem quantifies over them. *)

From stdpp Require Import base strings list gmap pretty.
From Stdlib Require Import ZArith Strings.Byte.

Open Scope string_scope.

(** ** Plain data *)

(** Node's [Buffer] and the [Uint8Array] chunks of a stream: bytes. *)
Definition Buffer : Type := list byte.
Definition Uint8Array : Type := list byte.

(** [Buffer.from(text)]. *)
Definition Buffer_from (text : string) : Buffer := String.list_byte_of_string text.

(** [Buffer.concat(chunks)]. *)
Definition Buffer_concat (chunks : list Uint8Array) : Buffer := concat chunks.

(** The double-quote character (code 34), used by the log line of
    [listFiles]. *)
Definition dquote : string := String (Ascii.ascii_of_nat 34) EmptyString.

(** JavaScript [a || b] on an optional string: [b] replaces every falsy
    [a], that is [undefined] and the empty string. *)
Definition or_else (a : option string) (b : string) : string :=
  match a with
  | Some (String c s) => String c s
  | Some EmptyString => b
  | None => b
  end.

(** [s.startsWith(pattern)]. *)
Fixpoint startsWith (pattern s : string) {struct pattern} : bool :=
  match pattern with
  | EmptyString => true
  | String a pattern' =>
      match s with
      | EmptyString => false
      | String b s' => if Ascii.eqb a b then startsWith pattern' s' else false
      end
  end.

(** JavaScript [a ?? b] on an optional number: [b] replaces [undefined]
    only.  Numbers are modelled as integers. *)
Definition nullish (a : option Z) (b : Z) : Z :=
  match a with
  | Some n => n
  | None => b
  end.

(** ** The DTOs, with the fields the service and its tests use *)

Module UploadFileDto.
Record t := make
  { bucket : string; key : string; content : Buffer; contentType : option string }.
End UploadFileDto.

Module DownloadFileDto.
Record t := make { bucket : string; key : string }.
End DownloadFileDto.

Module DeleteFileDto.
Record t := make { bucket : string; key : string }.
End DeleteFileDto.

Module ListFilesDto.
Record t := make { bucket : string; prefix : option string }.
End ListFilesDto.

Module GetSignedUrlDto.
Record t := make { bucket : string; key : string; expiresIn : option Z }.
End GetSignedUrlDto.

(** ** Thrown values and settled promises *)

(** What a [catch (error)] clause can receive: an instance of [Error]
    (whose [stack] is optional in the TypeScript declaration), or any other
    value. *)
Inductive Thrown :=
| ErrorInstance (name message : string) (stack : option string)
| OtherValue (value : string).

(** The second argument of every [this.logger.error] call: [error.stack]
    when [error instanceof Error], the empty string otherwise. *)
Definition stackTrace (error : Thrown) : option string :=
  match error with
  | ErrorInstance _ _ stack => stack
  | OtherValue _ => Some EmptyString
  end.

Inductive Settled (A : Type) :=
| Fulfilled (value : A)
| Rejected (reason : Thrown).
Arguments Fulfilled {A} value.
Arguments Rejected {A} reason.

Definition Settled_bind {A B} (s : Settled A) (k : A -> Settled B) : Settled B :=
  match s with
  | Fulfilled a => k a
  | Rejected e => Rejected e
  end.

(** ** The SDK: commands, outputs, streams *)

Inductive Command :=
| PutObjectCommand (Bucket Key : string) (Body : Buffer) (ContentType : string)
| GetObjectCommand (Bucket Key : string)
| ListObjectsV2Command (Bucket Prefix : string)
| DeleteObjectCommand (Bucket Key : string).

(** A [Readable]: the chunks it yields, then a normal end or a failure. *)
Record Readable := { emitted : list Uint8Array; failure : option Thrown }.

(** The answer to a get-object command, taken to carry its [Body];
    [Declared.GetObjectCommandOutput] covers an answer without one. *)
Record GetObjectCommandOutput := { Body : Readable }.

(** One entry of [Contents].  The service reads [obj.Key!]. *)
Record S3Object := { Key : string }.

Record ListObjectsV2CommandOutput := { Contents : option (list S3Object) }.

(** [for await (const chunk of stream) { chunks.push(chunk); }]: every
    chunk is pushed at the end of [chunks]; a stream that fails makes the
    loop throw. *)
Fixpoint push_each (pending : list Uint8Array) (chunks : list Uint8Array)
    : list Uint8Array :=
  match pending with
  | [] => chunks
  | chunk :: rest => push_each rest (chunks ++ [chunk])
  end.

Definition for_await_push (stream : Readable) (chunks : list Uint8Array)
    : Settled (list Uint8Array) :=
  match failure stream with
  | None => Fulfilled (push_each (emitted stream) chunks)
  | Some e => Rejected e
  end.

(** [send] is typed by its command, as in the SDK. *)
Definition OutputOf (c : Command) : Type :=
  match c with
  | PutObjectCommand _ _ _ _ => unit
  | GetObjectCommand _ _ => GetObjectCommandOutput
  | ListObjectsV2Command _ _ => ListObjectsV2CommandOutput
  | DeleteObjectCommand _ _ => unit
  end.

(** The configuration given to [new S3Client] by the constructor. *)
Record S3Client :=
  { region : option string; accessKeyId : option string; secretAccessKey : option string }.

(** ** The logger *)

Record Logger := { context : string }.

Inductive LogEntry :=
| LogLine (ctx message : string)
| ErrorLine (ctx message : string) (stack : option string).

(** ** The service object *)

Record S3StorageService := { s3 : S3Client; logger : Logger }.

Record ProcessEnv :=
  { AWS_REGION : option string;
    AWS_ACCESS_KEY_ID : option string;
    AWS_SECRET_ACCESS_KEY : option string }.

Definition constructor (env : ProcessEnv) : S3StorageService :=
  {| s3 := {| region := AWS_REGION env;
              accessKeyId := AWS_ACCESS_KEY_ID env;
              secretAccessKey := AWS_SECRET_ACCESS_KEY env |};
     logger := {| context := "S3StorageService" |} |}.

(** ** Scheduling of a batch *)

(** [handled]: the order in which the remote side handles the requests of a
    batch (indices into the batch); [settled]: the order in which their
    promises settle.  Indices that a list leaves out are taken after it in
    batch order, and repeated or out-of-range indices are skipped, so every
    pair of lists is a schedule. *)
Record Schedule := { handled : list nat; settled : list nat }.

(** A request handed to the SDK, as a test double would journal it. *)
Inductive Request :=
| Sent (c : Command)
| Presigned (client : S3Client) (c : Command) (expiresIn : Z).

Section Service.

(** The remote world and the behaviour of the SDK over it: [send] for
    [client.send(command)] and [generateSignedUrl] for the presigner's
    [getSignedUrl(client, command, { expiresIn })]. *)
Context {W : Type}.
Variable send : S3Client -> forall c : Command, W -> Settled (OutputOf c) * W.
Variable generateSignedUrl : S3Client -> Command -> Z -> W -> Settled string * W.

Record State :=
  { this : S3StorageService;
    remote : W;
    logged : list LogEntry;
    issued : list Request }.

Definition set_remote (w : W) (st : State) : State :=
  {| this := this st; remote := w; logged := logged st; issued := issued st |}.

Definition add_logged (entry : LogEntry) (st : State) : State :=
  {| this := this st; remote := remote st;
     logged := logged st ++ [entry]; issued := issued st |}.

Definition add_issued (r : Request) (st : State) : State :=
  {| this := this st; remote := remote st;
     logged := logged st; issued := issued st ++ [r] |}.

(** *** The monad of the method bodies *)

Definition Async (A : Type) : Type := State -> Settled A * State.

Definition ret {A} (a : A) : Async A := fun st => (Fulfilled a, st).

Definition throw {A} (error : Thrown) : Async A := fun st => (Rejected error, st).

Definition bind {A B} (m : Async A) (k : A -> Async B) : Async B :=
  fun st =>
    match m st with
    | (Fulfilled a, st') => k a st'
    | (Rejected e, st') => (Rejected e, st')
    end.

(** [try { body } catch (error) { handler }]. *)
Definition try_catch {A} (body : Async A) (handler : Thrown -> Async A) : Async A :=
  fun st =>
    match body st with
    | (Fulfilled a, st') => (Fulfilled a, st')
    | (Rejected e, st') => handler e st'
    end.

(** [this.logger.log(message)] and [this.logger.error(message, stack)]. *)
Definition logger_log (message : string) : Async unit :=
  fun st => (Fulfilled tt, add_logged (LogLine (context (logger (this st))) message) st).

Definition logger_error (message : string) (stack : option string) : Async unit :=
  fun st =>
    (Fulfilled tt, add_logged (ErrorLine (context (logger (this st))) message stack) st).

(** *** Promises *)

(** A pending promise of the SDK: what it settles to is decided when the
    remote side gets to it. *)
Definition Promise (A : Type) : Type := W -> Settled A * W.

(** The rest of an [async] function after its first [await]. *)
Definition Promise_then {A B} (p : Promise A) (k : A -> Settled B) : Promise B :=
  fun w => let '(o, w') := p w in (Settled_bind o k, w').

(** [await p]. *)
Definition await {A} (p : Promise A) : Async A :=
  fun st => let '(o, w') := p (remote st) in (o, set_remote w' st).

(** [this.s3.send(command)]: the request leaves at once and a pending
    promise comes back.  The client is taken at its word that [send]
    returns a promise; [Declared.s3_send] covers a call that throws
    instead. *)
Definition s3_send (c : Command) : Async (Promise (OutputOf c)) :=
  fun st => (Fulfilled (send (s3 (this st)) c), add_issued (Sent c) st).

(** [generateSignedUrl(this.s3, command, { expiresIn })]. *)
Definition presigner_getSignedUrl (c : Command) (expiresIn : Z) : Async (Promise string) :=
  fun st =>
    (Fulfilled (generateSignedUrl (s3 (this st)) c expiresIn),
     add_issued (Presigned (s3 (this st)) c expiresIn) st).

(** [data.map(callback)]: the callback runs on each element in index
    order. *)
Fixpoint Array_map {A B} (callback : A -> Async B) (data : list A) : Async (list B) :=
  match data with
  | [] => ret []
  | x :: rest =>
      bind (callback x) (fun y =>
      bind (Array_map callback rest) (fun ys => ret (y :: ys)))
  end.

(** The remote side takes the requests of [order] one by one; [slots]
    holds what each promise of the batch has settled to so far. *)
Fixpoint handleAll {A} (promises : list (Promise A)) (order : list nat)
    (slots : list (option (Settled A))) (w : W) : list (option (Settled A)) * W :=
  match order with
  | [] => (slots, w)
  | i :: order' =>
      match promises !! i, slots !! i with
      | Some p, Some None =>
          let '(o, w') := p w in
          handleAll promises order' (<[i := Some o]> slots) w'
      | _, _ => handleAll promises order' slots w
      end
  end.

(** The reason of the first promise, in [order], that is rejected. *)
Fixpoint firstRejected {A} (order : list nat) (slots : list (option (Settled A)))
    : option Thrown :=
  match order with
  | [] => None
  | i :: order' =>
      match slots !! i with
      | Some (Some (Rejected e)) => Some e
      | _ => firstRejected order' slots
      end
  end.

(** The values of the fulfilled promises, in batch order. *)
Definition fulfilledValues {A} (slots : list (option (Settled A))) : list A :=
  omap (fun slot => match slot with Some (Fulfilled a) => Some a | _ => None end) slots.

(** What every promise of the batch settles to under [sch], in batch
    order, and the remote world once all of them were handled. *)
Definition settleAll {A} (sch : Schedule) (promises : list (Promise A)) (w : W)
    : list (option (Settled A)) * W :=
  let n := length promises in
  handleAll promises (handled sch ++ seq 0 n) (replicate n None) w.

(** [Promise.all(promises)]: fulfilled with the values in batch order when
    every promise is fulfilled, rejected with the reason of the first
    promise to be rejected otherwise.  Nothing cancels the requests that are
    still in flight at the first rejection: the remote world returned is the
    one reached once the whole batch was handled. *)
Definition Promise_all {A} (sch : Schedule) (promises : list (Promise A))
    : Promise (list A) :=
  fun w =>
    let '(slots, w') := settleAll sch promises w in
    match firstRejected (settled sch ++ seq 0 (length promises)) slots with
    | Some e => (Rejected e, w')
    | None => (Fulfilled (fulfilledValues slots), w')
    end.

(** *** The five methods of [S3StorageService] *)

Local Notation "'let*' x := m 'in' k" := (bind m (fun x => k))
  (at level 10, x name, m at level 100, k at level 200).

Definition uploadFiles (sch : Schedule) (data : list UploadFileDto.t) : Async unit :=
  let* _ := logger_log ("Uploading " +:+ pretty (length data) +:+ " file(s) to S3...") in
  try_catch
    (let* promises :=
       Array_map
         (fun file =>
            s3_send
              (PutObjectCommand
                 (UploadFileDto.bucket file)
                 (UploadFileDto.key file)
                 (UploadFileDto.content file)
                 (or_else (UploadFileDto.contentType file) "application/octet-stream"))
            : Async (Promise unit))
         data in
     let* _ := await (Promise_all sch promises) in
     logger_log "Upload completed successfully.")
    (fun error =>
       let* _ := logger_error "Failed to upload files to S3" (stackTrace error) in
       throw error).

Definition downloadFiles (sch : Schedule) (data : list DownloadFileDto.t)
    : Async (list Buffer) :=
  let* _ := logger_log ("Downloading " +:+ pretty (length data) +:+ " file(s) from S3...") in
  try_catch
    (let* promises :=
       Array_map
         (fun file =>
            let* response :=
              (s3_send
                 (GetObjectCommand (DownloadFileDto.bucket file) (DownloadFileDto.key file))
               : Async (Promise GetObjectCommandOutput)) in
            ret (Promise_then response (fun response =>
                   let stream := Body response in
                   Settled_bind (for_await_push stream [])
                     (fun chunks => Fulfilled (Buffer_concat chunks)))))
         data in
     await (Promise_all sch promises))
    (fun error =>
       let* _ := logger_error "Failed to download files from S3" (stackTrace error) in
       throw error).

Definition deleteFiles (sch : Schedule) (data : list DeleteFileDto.t) : Async unit :=
  let* _ := logger_log ("Deleting " +:+ pretty (length data) +:+ " file(s) from S3...") in
  try_catch
    (let* promises :=
       Array_map
         (fun file =>
            s3_send
              (DeleteObjectCommand (DeleteFileDto.bucket file) (DeleteFileDto.key file))
            : Async (Promise unit))
         data in
     let* _ := await (Promise_all sch promises) in
     logger_log "Deletion completed successfully.")
    (fun error =>
       let* _ := logger_error "Failed to delete files from S3" (stackTrace error) in
       throw error).

Definition listFiles (data : ListFilesDto.t) : Async (list string) :=
  let* _ :=
    logger_log
      ("Listing files from bucket " +:+ dquote +:+ ListFilesDto.bucket data +:+ dquote
       +:+ " with prefix " +:+ dquote +:+ or_else (ListFilesDto.prefix data) EmptyString
       +:+ dquote +:+ "...") in
  try_catch
    (let* promise :=
       (s3_send
          (ListObjectsV2Command
             (ListFilesDto.bucket data)
             (or_else (ListFilesDto.prefix data) EmptyString))
        : Async (Promise ListObjectsV2CommandOutput)) in
     let* response := await promise in
     let keys :=
       match Contents response with
       | Some contents => map Key contents
       | None => []
       end in
     let* _ := logger_log ("Found " +:+ pretty (length keys) +:+ " file(s).") in
     ret keys)
    (fun error =>
       let* _ := logger_error "Failed to list files from S3" (stackTrace error) in
       throw error).

Definition getSignedUrl (data : GetSignedUrlDto.t) : Async string :=
  let* _ :=
    logger_log
      ("Generating signed URL for s3://" +:+ GetSignedUrlDto.bucket data +:+ "/"
       +:+ GetSignedUrlDto.key data +:+ "...") in
  try_catch
    (let command :=
       GetObjectCommand (GetSignedUrlDto.bucket data) (GetSignedUrlDto.key data) in
     let* promise :=
       presigner_getSignedUrl command (nullish (GetSignedUrlDto.expiresIn data) 3600) in
     let* url := await promise in
     let* _ := logger_log "Signed URL generated successfully." in
     ret url)
    (fun error =>
       let* _ := logger_error "Failed to generate signed URL" (stackTrace error) in
       throw error).

(** *** The [StorageService] interface as a type of calls *)

Inductive Call : Type -> Type :=
| UploadFiles (sch : Schedule) (data : list UploadFileDto.t) : Call unit
| DownloadFiles (sch : Schedule) (data : list DownloadFileDto.t) : Call (list Buffer)
| DeleteFiles (sch : Schedule) (data : list DeleteFileDto.t) : Call unit
| ListFiles (data : ListFilesDto.t) : Call (list string)
| GetSignedUrl (data : GetSignedUrlDto.t) : Call string.

Definition invoke {R} (call : Call R) : Async R :=
  match call with
  | UploadFiles sch data => uploadFiles sch data
  | DownloadFiles sch data => downloadFiles sch data
  | DeleteFiles sch data => deleteFiles sch data
  | ListFiles data => listFiles data
  | GetSignedUrl data => getSignedUrl data
  end.

End Service.

Arguments this {W} _.
Arguments remote {W} _.
Arguments logged {W} _.
Arguments issued {W} _.

(** ** A reference object store *)

(** Modelled from the spec: the remote object-storage service behind the
    SDK.  It is an external collaborator, so its behaviour is taken from the
    specification: it accepts put-object, get-object (answered with a
    readable byte stream), list-objects-by-prefix (answered with an array of
    key records) and delete-object; a write replaces any object already at
    its key; both fields of a file reference must be non-empty for an
    operation to succeed.  A stream delivers the stored bytes in chunks of
    at most [S highWaterMark] bytes, and a listing without matching keys
    carries no [Contents]. *)
Record StoredObject := { body : Buffer; storedContentType : string }.

Record Store :=
  { objects : gmap (string * string) StoredObject;
    highWaterMark : nat }.

Definition InvalidBucketName : Thrown :=
  ErrorInstance "InvalidBucketName" "The specified bucket is not valid."
    (Some "InvalidBucketName: The specified bucket is not valid.").

Definition InvalidKey : Thrown :=
  ErrorInstance "InvalidArgument" "The object key is empty."
    (Some "InvalidArgument: The object key is empty.").

Definition NoSuchKey : Thrown :=
  ErrorInstance "NoSuchKey" "The specified key does not exist."
    (Some "NoSuchKey: The specified key does not exist.").

Definition MissingRegion : Thrown :=
  ErrorInstance "Error" "Region is missing" (Some "Error: Region is missing").

(** The reason for which a file reference is refused, if it is. *)
Definition refused (Bucket Key : string) : option Thrown :=
  match Bucket, Key with
  | EmptyString, _ => Some InvalidBucketName
  | _, EmptyString => Some InvalidKey
  | _, _ => None
  end.

Fixpoint chunksFuel (fuel size : nat) (content : Buffer) : list Uint8Array :=
  match fuel with
  | 0 => []
  | S fuel' =>
      match content with
      | [] => []
      | _ :: _ => take (S size) content :: chunksFuel fuel' size (drop (S size) content)
      end
  end.

Definition toChunks (size : nat) (content : Buffer) : list Uint8Array :=
  chunksFuel (length content) size content.

Definition set_objects (m : gmap (string * string) StoredObject) (w : Store) : Store :=
  {| objects := m; highWaterMark := highWaterMark w |}.

(** The keys of [Bucket] that start with [Prefix]. *)
Definition matchingKeys (Bucket Prefix : string) (w : Store) : list string :=
  omap
    (fun entry : string * string * StoredObject =>
       let '(b, k, _) := entry in
       if decide (b = Bucket) then (if startsWith Prefix k then Some k else None)
       else None)
    (map_to_list (objects w)).

Definition Store_send (client : S3Client) (c : Command)
    : Store -> Settled (OutputOf c) * Store :=
  match c as c0 return Store -> Settled (OutputOf c0) * Store with
  | PutObjectCommand Bucket Key Body ContentType =>
      fun w =>
        match refused Bucket Key with
        | Some e => (Rejected e, w)
        | None =>
            (Fulfilled tt,
             set_objects
               (<[(Bucket, Key) := {| body := Body; storedContentType := ContentType |}]>
                  (objects w)) w)
        end
  | GetObjectCommand Bucket Key =>
      fun w =>
        match refused Bucket Key with
        | Some e => (Rejected e, w)
        | None =>
            match objects w !! (Bucket, Key) with
            | Some obj =>
                (Fulfilled
                   {| Body := {| emitted := toChunks (highWaterMark w) (body obj);
                                 failure := None |} |}, w)
            | None => (Rejected NoSuchKey, w)
            end
        end
  | ListObjectsV2Command Bucket Prefix =>
      fun w =>
        match Bucket with
        | EmptyString => (Rejected InvalidBucketName, w)
        | _ =>
            match matchingKeys Bucket Prefix w with
            | [] => (Fulfilled {| Contents := None |}, w)
            | keys => (Fulfilled {| Contents := Some (map Build_S3Object keys) |}, w)
            end
        end
  | DeleteObjectCommand Bucket Key =>
      fun w =>
        match refused Bucket Key with
        | Some e => (Rejected e, w)
        | None => (Fulfilled tt, set_objects (delete (Bucket, Key) (objects w)) w)
        end
  end.

(** Modelled from the spec: the signing collaborator, which produces a
    time-limited URL for one object and fails on a provider error; here it
    fails when the client has no region or the reference is refused. *)
Definition Store_generateSignedUrl (client : S3Client) (c : Command) (expiresIn : Z)
    (w : Store) : Settled string * Store :=
  match c, region client with
  | GetObjectCommand Bucket Key, Some r =>
      match refused Bucket Key with
      | Some e => (Rejected e, w)
      | None =>
          (Fulfilled
             ("https://" +:+ Bucket +:+ ".s3." +:+ r +:+ ".amazonaws.com/" +:+ Key
              +:+ "?X-Amz-Expires=" +:+ pretty expiresIn), w)
      end
  | _, _ => (Rejected MissingRegion, w)
  end.

(** The service running against the reference store. *)
Definition onStore {R} (call : Call R) : Async (W := Store) R :=
  invoke Store_send Store_generateSignedUrl call.


(** ** Vocabulary of the statements *)

Section Observations.

Context {W : Type}.
Variable send : S3Client -> forall c : Command, W -> Settled (OutputOf c) * W.
Variable generateSignedUrl : S3Client -> Command -> Z -> W -> Settled string * W.

(** The command that [uploadFiles] builds for one request. *)
Definition putCommand (file : UploadFileDto.t) : Command :=
  PutObjectCommand
    (UploadFileDto.bucket file) (UploadFileDto.key file) (UploadFileDto.content file)
    (or_else (UploadFileDto.contentType file) "application/octet-stream").

Definition getCommand (file : DownloadFileDto.t) : Command :=
  GetObjectCommand (DownloadFileDto.bucket file) (DownloadFileDto.key file).

Definition deleteCommand (file : DeleteFileDto.t) : Command :=
  DeleteObjectCommand (DeleteFileDto.bucket file) (DeleteFileDto.key file).

Definition listCommand (data : ListFilesDto.t) : Command :=
  ListObjectsV2Command
    (ListFilesDto.bucket data) (or_else (ListFilesDto.prefix data) EmptyString).

Definition signedCommand (data : GetSignedUrlDto.t) : Command :=
  GetObjectCommand (GetSignedUrlDto.bucket data) (GetSignedUrlDto.key data).

(** What the body of the [async] callback of [downloadFiles] does with a
    response: drain the stream, then concatenate. *)
Definition readAll (response : GetObjectCommandOutput) : Settled Buffer :=
  Settled_bind (for_await_push (Body response) [])
    (fun chunks => Fulfilled (Buffer_concat chunks)).

(** The promises that each batch method hands to [Promise.all]. *)
Definition uploadPromises (self : S3StorageService) (data : list UploadFileDto.t)
    : list (Promise (W := W) unit) :=
  map (fun file => send (s3 self) (putCommand file) : Promise unit) data.

(** The pending [send] calls of [downloadFiles], before the streams are
    read. *)
Definition readPromises (self : S3StorageService) (data : list DownloadFileDto.t)
    : list (Promise (W := W) GetObjectCommandOutput) :=
  map (fun file => send (s3 self) (getCommand file) : Promise GetObjectCommandOutput) data.

Definition downloadPromises (self : S3StorageService) (data : list DownloadFileDto.t)
    : list (Promise (W := W) Buffer) :=
  map (fun p => Promise_then p readAll) (readPromises self data).

Definition deletePromises (self : S3StorageService) (data : list DeleteFileDto.t)
    : list (Promise (W := W) unit) :=
  map (fun file => send (s3 self) (deleteCommand file) : Promise unit) data.

(** The reasons of the rejected promises among [slots], in batch order. *)
Definition reasons {A} (slots : list (option (Settled A))) : list Thrown :=
  omap (fun slot => match slot with Some (Rejected e) => Some e | _ => None end) slots.

(** The reasons with which the remote calls of [call] reject when it runs
    from [st]: one entry per rejected call, in batch order.  For
    [downloadFiles] a call covers the request and the reading of its
    stream. *)
Definition remoteRejections {R} (call : Call R) (st : State (W := W)) : list Thrown :=
  match call with
  | UploadFiles sch data =>
      reasons (settleAll sch (uploadPromises (this st) data) (remote st)).1
  | DownloadFiles sch data =>
      reasons (settleAll sch (downloadPromises (this st) data) (remote st)).1
  | DeleteFiles sch data =>
      reasons (settleAll sch (deletePromises (this st) data) (remote st)).1
  | ListFiles data =>
      reasons [Some (send (s3 (this st)) (listCommand data) (remote st)).1]
  | GetSignedUrl data =>
      reasons
        [Some (generateSignedUrl (s3 (this st)) (signedCommand data)
                 (nullish (GetSignedUrlDto.expiresIn data) 3600) (remote st)).1]
  end.

(** The reason of the first of these calls to reject, in settling order. *)
Definition firstRejection {R} (call : Call R) (st : State (W := W)) : option Thrown :=
  match call with
  | UploadFiles sch data =>
      firstRejected (settled sch ++ seq 0 (length data))
        (settleAll sch (uploadPromises (this st) data) (remote st)).1
  | DownloadFiles sch data =>
      firstRejected (settled sch ++ seq 0 (length data))
        (settleAll sch (downloadPromises (this st) data) (remote st)).1
  | DeleteFiles sch data =>
      firstRejected (settled sch ++ seq 0 (length data))
        (settleAll sch (deletePromises (this st) data) (remote st)).1
  | ListFiles data =>
      firstRejected [0] [Some (send (s3 (this st)) (listCommand data) (remote st)).1]
  | GetSignedUrl data =>
      firstRejected [0]
        [Some (generateSignedUrl (s3 (this st)) (signedCommand data)
                 (nullish (GetSignedUrlDto.expiresIn data) 3600) (remote st)).1]
  end.

(** What the awaited promise of [call] settles to, as the result of the
    method, and the remote world it leaves. *)
Definition awaited {R} (call : Call R) (st : State (W := W)) : Settled R * W :=
  match call in Call R0 return Settled R0 * W with
  | UploadFiles sch data =>
      let r := Promise_all sch (uploadPromises (this st) data) (remote st) in
      (Settled_bind r.1 (fun _ => Fulfilled tt), r.2)
  | DownloadFiles sch data =>
      Promise_all sch (downloadPromises (this st) data) (remote st)
  | DeleteFiles sch data =>
      let r := Promise_all sch (deletePromises (this st) data) (remote st) in
      (Settled_bind r.1 (fun _ => Fulfilled tt), r.2)
  | ListFiles data =>
      let r := send (s3 (this st)) (listCommand data) (remote st) in
      (Settled_bind r.1
         (fun response =>
            Fulfilled
              match Contents response with
              | Some contents => map Key contents
              | None => []
              end),
       r.2)
  | GetSignedUrl data =>
      generateSignedUrl (s3 (this st)) (signedCommand data)
        (nullish (GetSignedUrlDto.expiresIn data) 3600) (remote st)
  end.

(** The requests that [call] hands to the SDK, in the order it issues
    them. *)
Definition requestsOf {R} (call : Call R) (self : S3StorageService) : list Request :=
  match call with
  | UploadFiles _ data => map (fun file => Sent (putCommand file)) data
  | DownloadFiles _ data => map (fun file => Sent (getCommand file)) data
  | DeleteFiles _ data => map (fun file => Sent (deleteCommand file)) data
  | ListFiles data => [Sent (listCommand data)]
  | GetSignedUrl data =>
      [Presigned (s3 self) (signedCommand data)
         (nullish (GetSignedUrlDto.expiresIn data) 3600)]
  end.

(** The log lines that [call] adds when it runs from [st]. *)
Definition notices {R} (call : Call R) (st : State (W := W)) : list LogEntry :=
  drop (length (logged st)) (logged (invoke send generateSignedUrl call st).2).

End Observations.

(** The messages of the five methods. *)
Definition startNotice {R} (call : Call R) : string :=
  match call with
  | UploadFiles _ data => "Uploading " +:+ pretty (length data) +:+ " file(s) to S3..."
  | DownloadFiles _ data => "Downloading " +:+ pretty (length data) +:+ " file(s) from S3..."
  | DeleteFiles _ data => "Deleting " +:+ pretty (length data) +:+ " file(s) from S3..."
  | ListFiles data =>
      "Listing files from bucket " +:+ dquote +:+ ListFilesDto.bucket data +:+ dquote
      +:+ " with prefix " +:+ dquote +:+ or_else (ListFilesDto.prefix data) EmptyString
      +:+ dquote +:+ "..."
  | GetSignedUrl data =>
      "Generating signed URL for s3://" +:+ GetSignedUrlDto.bucket data +:+ "/"
      +:+ GetSignedUrlDto.key data +:+ "..."
  end.

Definition failureNotice {R} (call : Call R) : string :=
  match call with
  | UploadFiles _ _ => "Failed to upload files to S3"
  | DownloadFiles _ _ => "Failed to download files from S3"
  | DeleteFiles _ _ => "Failed to delete files from S3"
  | ListFiles _ => "Failed to list files from S3"
  | GetSignedUrl _ => "Failed to generate signed URL"
  end.

(** The line logged after a success; [downloadFiles] has none. *)
Definition completionNotice {R} (call : Call R) : R -> option string :=
  match call in Call R0 return R0 -> option string with
  | UploadFiles _ _ => fun _ => Some "Upload completed successfully."
  | DownloadFiles _ _ => fun _ => None
  | DeleteFiles _ _ => fun _ => Some "Deletion completed successfully."
  | ListFiles _ => fun keys => Some ("Found " +:+ pretty (length keys) +:+ " file(s).")
  | GetSignedUrl _ => fun _ => Some "Signed URL generated successfully."
  end.

(** The lines that follow the start notice, given how the call ended. *)
Definition closing {R} (call : Call R) (ctx : string) (outcome : Settled R)
    : list LogEntry :=
  match outcome with
  | Fulfilled result =>
      match completionNotice call result with
      | Some message => [LogLine ctx message]
      | None => []
      end
  | Rejected e => [ErrorLine ctx (failureNotice call) (stackTrace e)]
  end.

(** The three classes of notices, recognised from the lines themselves. *)
Inductive NoticeClass := StartNotice | CompletionNotice | ErrorNotice.

Definition isStartMessage (message : string) : bool :=
  startsWith "Uploading " message
  || startsWith "Downloading " message
  || startsWith "Deleting " message
  || startsWith "Listing files from bucket " message
  || startsWith "Generating signed URL for " message.

Definition isCompletionMessage (message : string) : bool :=
  String.eqb message "Upload completed successfully."
  || String.eqb message "Deletion completed successfully."
  || startsWith "Found " message
  || String.eqb message "Signed URL generated successfully.".

Definition classOf (entry : LogEntry) : option NoticeClass :=
  match entry with
  | ErrorLine _ _ _ => Some ErrorNotice
  | LogLine _ message =>
      if isStartMessage message then Some StartNotice
      else if isCompletionMessage message then Some CompletionNotice
      else None
  end.

(** ** Sample runs against the reference store *)

Definition sampleEnv : ProcessEnv :=
  {| AWS_REGION := Some "eu-west-1";
     AWS_ACCESS_KEY_ID := Some "AKIDEXAMPLE";
     AWS_SECRET_ACCESS_KEY := Some "secret" |}.

(** A freshly constructed service in front of an empty store that streams
    two bytes per chunk. *)
Definition freshState : State (W := Store) :=
  {| this := constructor sampleEnv;
     remote := {| objects := ∅; highWaterMark := 1 |};
     logged := [];
     issued := [] |}.

(** Requests handled and settled in batch order, and in the opposite order
    for a batch of two. *)
Definition inOrder : Schedule := {| handled := []; settled := [] |}.
Definition reversed : Schedule := {| handled := [1; 0]; settled := [1; 0] |}.

Definition hello : UploadFileDto.t :=
  UploadFileDto.make "b" "f.txt" (Buffer_from "Hello") (Some "text/plain").

Definition untyped : UploadFileDto.t :=
  UploadFileDto.make "b" "raw.bin" (Buffer_from "data") None.

Definition emptyTyped : UploadFileDto.t :=
  UploadFileDto.make "b" "blank.bin" (Buffer_from "data") (Some EmptyString).

(** Two requests that the store refuses for different reasons. *)
Definition noBucket : UploadFileDto.t :=
  UploadFileDto.make EmptyString "k" (Buffer_from "x") None.
Definition noKey : UploadFileDto.t :=
  UploadFileDto.make "b" EmptyString (Buffer_from "y") None.

(** Two requests for the same object with different contents. *)
Definition first : UploadFileDto.t :=
  UploadFileDto.make "b" "k" (Buffer_from "A") None.
Definition second : UploadFileDto.t :=
  UploadFileDto.make "b" "k" (Buffer_from "B") None.

(** The download request for the object of an upload request. *)
Definition downloadOf (file : UploadFileDto.t) : DownloadFileDto.t :=
  DownloadFileDto.make (UploadFileDto.bucket file) (UploadFileDto.key file).

(** The store after [hello] and [untyped] were uploaded. *)
Definition stocked : State (W := Store) :=
  (onStore (UploadFiles inOrder [hello; untyped]) freshState).2.

(** The streams with which the store answers reads of these two objects. *)
Definition stockedStreams : list Readable :=
  [ {| emitted := [Buffer_from "He"; Buffer_from "ll"; Buffer_from "o"]; failure := None |};
    {| emitted := [Buffer_from "da"; Buffer_from "ta"]; failure := None |} ].

(** A service whose client has no region: the presigner refuses to sign. *)
Definition regionless : State (W := Store) :=
  {| this := constructor {| AWS_REGION := None;
                            AWS_ACCESS_KEY_ID := Some "AKIDEXAMPLE";
                            AWS_SECRET_ACCESS_KEY := Some "secret" |};
     remote := {| objects := ∅; highWaterMark := 1 |};
     logged := [];
     issued := [] |}.

(** The same store after an unrelated object was uploaded and deleted again
    and the bucket was listed. *)
Definition busy : State (W := Store) :=
  (onStore (ListFiles (ListFilesDto.make "b" None))
     (onStore (DeleteFiles inOrder [DeleteFileDto.make "b" "k"])
        (onStore (UploadFiles inOrder [first])
           (onStore (UploadFiles reversed [hello; untyped]) freshState).2).2).2).2.

(** ** Further vocabulary: test doubles and counts *)

(** [ReadableFromString(text)] of the test file: [stream.push(text)] then
    [stream.push(null)].  Pushing the empty string adds no chunk. *)
Definition ReadableFromString (text : string) : Readable :=
  {| emitted := match text with
                | EmptyString => []
                | String _ _ => [Buffer_from text]
                end;
     failure := None |}.

(** [jest.fn().mockRejectedValue(error)] in the place of [send] and of the
    presigner: every call rejects with [error] and the remote side is not
    reached. *)
Definition mockRejectedValue {W : Type} (error : Thrown)
    : S3Client -> forall c : Command, W -> Settled (OutputOf c) * W :=
  fun _ _ w => (Rejected error, w).

Definition mockRejectedUrl {W : Type} (error : Thrown)
    : S3Client -> Command -> Z -> W -> Settled string * W :=
  fun _ _ _ w => (Rejected error, w).

(** [jest.fn().mockResolvedValue(value)] in the place of [send].  Here
    every call is answered with the value anew, while jest hands the same
    object to every call, and a stream in it can be read once only: the
    double is exact for a single call, which is how it is used. *)
Definition mockResolvedValue {W : Type} (value : forall c : Command, OutputOf c)
    : S3Client -> forall c : Command, W -> Settled (OutputOf c) * W :=
  fun _ c w => (Fulfilled (value c), w).

(** The resolved value [{ Body: body }]: a get-object output with that
    body, and nothing of interest for the other commands. *)
Definition withBody (body : Readable) (c : Command) : OutputOf c :=
  match c as c0 return OutputOf c0 with
  | PutObjectCommand _ _ _ _ => tt
  | GetObjectCommand _ _ => {| Body := body |}
  | ListObjectsV2Command _ _ => {| Contents := None |}
  | DeleteObjectCommand _ _ => tt
  end.

(** The logger context that a log line carries. *)
Definition contextOf (entry : LogEntry) : string :=
  match entry with
  | LogLine ctx _ => ctx
  | ErrorLine ctx _ _ => ctx
  end.

(** The number of remote calls that a method call makes. *)
Definition remoteCalls {R} (call : Call R) : nat :=
  match call with
  | UploadFiles _ data => length data
  | DownloadFiles _ data => length data
  | DeleteFiles _ data => length data
  | ListFiles _ => 1
  | GetSignedUrl _ => 1
  end.

(** A state of the reference store holding a few objects in two buckets. *)
Definition library : State (W := Store) :=
  (onStore
     (UploadFiles inOrder
        [UploadFileDto.make "b" "docs/a.txt" (Buffer_from "alpha") None;
         UploadFileDto.make "b" "docs/b.txt" (Buffer_from "beta") (Some "text/plain");
         UploadFileDto.make "b" "img/c.png" (Buffer_from "gamma") (Some "image/png");
         UploadFileDto.make "other" "docs/d.txt" (Buffer_from "delta") None])
     freshState).2.

(** A stream that delivers two chunks and then fails. *)
Definition resetByPeer : Thrown :=
  ErrorInstance "Error" "aborted" (Some "Error: aborted").

Definition brokenStream : Readable :=
  {| emitted := [Buffer_from "par"; Buffer_from "tial"]; failure := Some resetByPeer |}.

(** ** The client as the SDK declares it *)

(** The embedding above takes the client at its word on two points: a call
    of [send] hands back a promise, and a fulfilled get-object answer has a
    [Body].  The declarations of the SDK promise neither: [send] is a
    function that can throw before it returns, and [Body] is optional (the
    service casts it, [response.Body as Readable]).  [Declared] embeds the
    send-based methods again without these two assumptions:
    - [throws] tells whether [send] throws synchronously for a command, and
      what;
    - a get-object answer may come without [Body], in which case the
      [for await] loop throws the engine's error for a value that is not
      async iterable ([notAsyncIterable]).
    In [uploadFiles] and [deleteFiles] the callback of [data.map] is a plain
    arrow function, so a throw of [send] leaves [data.map]: the remaining
    requests are never sent and [Promise.all] is never called, while the
    requests sent before are in flight and still reach the remote side.
    In [downloadFiles] the callback is [async], so a throw of [send] only
    rejects the promise of that request. *)
Module Declared.

Record GetObjectCommandOutput := { Body : option Readable }.

Definition OutputOf (c : Command) : Type :=
  match c with
  | PutObjectCommand _ _ _ _ => unit
  | GetObjectCommand _ _ => GetObjectCommandOutput
  | ListObjectsV2Command _ _ => ListObjectsV2CommandOutput
  | DeleteObjectCommand _ _ => unit
  end.

Section Service.

Context {W : Type}.
Variable send : S3Client -> forall c : Command, W -> Settled (OutputOf c) * W.
Variable throws : S3Client -> Command -> W -> option Thrown.
Variable notAsyncIterable : Thrown.
Variable generateSignedUrl : S3Client -> Command -> Z -> W -> Settled string * W.

Local Notation "'let*' x := m 'in' k" := (bind m (fun x => k))
  (at level 10, x name, m at level 100, k at level 200).

(** [this.s3.send(command)]: the call is made, and either throws or hands
    back a pending promise. *)
Definition s3_send (c : Command) : Async (Promise (W := W) (OutputOf c)) :=
  fun st =>
    match throws (s3 (this st)) c (remote st) with
    | Some e => (Rejected e, add_issued (Sent c) st)
    | None => (Fulfilled (send (s3 (this st)) c), add_issued (Sent c) st)
    end.

(** [data.map(callback)] with a callback that can throw: the results
    obtained before the throw, the thrown value if any, and the state in
    which [data.map] was left. *)
Fixpoint Array_map_until {A B} (callback : A -> Async (W := W) B) (data : list A)
    (st : State (W := W)) : list B * option Thrown * State (W := W) :=
  match data with
  | [] => ([], None, st)
  | x :: rest =>
      match callback x st with
      | (Fulfilled y, st') =>
          let '(ys, thrown, st'') := Array_map_until callback rest st' in
          (y :: ys, thrown, st'')
      | (Rejected e, st') => ([], Some e, st')
      end
  end.

(** [await Promise.all(data.map(callback))] inside a [try] block, for a
    callback that is a plain arrow function. *)
Definition await_all_of_map {A B} (sch : Schedule) (callback : A -> Async (Promise B))
    (data : list A) : Async (list B) :=
  fun st =>
    let '(promises, thrown, st') := Array_map_until callback data st in
    match thrown with
    | Some e => (Rejected e, set_remote (settleAll sch promises (remote st')).2 st')
    | None => await (Promise_all sch promises) st'
    end.

(** The body of the [async] callback of [downloadFiles] after its
    [await]. *)
Definition readAll (response : GetObjectCommandOutput) : Settled Buffer :=
  match Body response with
  | Some stream =>
      Settled_bind (for_await_push stream [])
        (fun chunks => Fulfilled (Buffer_concat chunks))
  | None => Rejected notAsyncIterable
  end.

Definition uploadFiles (sch : Schedule) (data : list UploadFileDto.t) : Async unit :=
  let* _ := logger_log ("Uploading " +:+ pretty (length data) +:+ " file(s) to S3...") in
  try_catch
    (let* _ :=
       await_all_of_map sch
         (fun file =>
            s3_send
              (PutObjectCommand
                 (UploadFileDto.bucket file)
                 (UploadFileDto.key file)
                 (UploadFileDto.content file)
                 (or_else (UploadFileDto.contentType file) "application/octet-stream"))
            : Async (Promise unit))
         data in
     logger_log "Upload completed successfully.")
    (fun error =>
       let* _ := logger_error "Failed to upload files to S3" (stackTrace error) in
       throw error).

Definition downloadFiles (sch : Schedule) (data : list DownloadFileDto.t)
    : Async (list Buffer) :=
  let* _ := logger_log ("Downloading " +:+ pretty (length data) +:+ " file(s) from S3...") in
  try_catch
    (let* promises :=
       Array_map
         (fun file =>
            try_catch
              (let* response :=
                 (s3_send
                    (GetObjectCommand (DownloadFileDto.bucket file)
                       (DownloadFileDto.key file))
                  : Async (Promise GetObjectCommandOutput)) in
               ret (Promise_then response readAll))
              (fun error => ret ((fun w => (Rejected error, w)) : Promise Buffer)))
         data in
     await (Promise_all sch promises))
    (fun error =>
       let* _ := logger_error "Failed to download files from S3" (stackTrace error) in
       throw error).

Definition deleteFiles (sch : Schedule) (data : list DeleteFileDto.t) : Async unit :=
  let* _ := logger_log ("Deleting " +:+ pretty (length data) +:+ " file(s) from S3...") in
  try_catch
    (let* _ :=
       await_all_of_map sch
         (fun file =>
            s3_send
              (DeleteObjectCommand (DeleteFileDto.bucket file) (DeleteFileDto.key file))
            : Async (Promise unit))
         data in
     logger_log "Deletion completed successfully.")
    (fun error =>
       let* _ := logger_error "Failed to delete files from S3" (stackTrace error) in
       throw error).

Definition listFiles (data : ListFilesDto.t) : Async (list string) :=
  let* _ :=
    logger_log
      ("Listing files from bucket " +:+ dquote +:+ ListFilesDto.bucket data +:+ dquote
       +:+ " with prefix " +:+ dquote +:+ or_else (ListFilesDto.prefix data) EmptyString
       +:+ dquote +:+ "...") in
  try_catch
    (let* promise :=
       (s3_send
          (ListObjectsV2Command
             (ListFilesDto.bucket data)
             (or_else (ListFilesDto.prefix data) EmptyString))
        : Async (Promise ListObjectsV2CommandOutput)) in
     let* response := await promise in
     let keys :=
       match Contents response with
       | Some contents => map Key contents
       | None => []
       end in
     let* _ := logger_log ("Found " +:+ pretty (length keys) +:+ " file(s).") in
     ret keys)
    (fun error =>
       let* _ := logger_error "Failed to list files from S3" (stackTrace error) in
       throw error).

(** [getSignedUrl] does not call [send]: it is the method embedded above. *)
Definition invoke {R} (call : Call R) : Async R :=
  match call with
  | UploadFiles sch data => uploadFiles sch data
  | DownloadFiles sch data => downloadFiles sch data
  | DeleteFiles sch data => deleteFiles sch data
  | ListFiles data => listFiles data
  | GetSignedUrl data => getSignedUrl generateSignedUrl data
  end.

(** *** Vocabulary of the statements *)

(** The requests of a batch that a plain-arrow [data.map] gets to: all of
    them up to and including the first for which [send] throws. *)
Fixpoint reached {A} (thrown : A -> option Thrown) (data : list A) : list A :=
  match data with
  | [] => []
  | x :: rest =>
      match thrown x with
      | Some _ => [x]
      | None => x :: reached thrown rest
      end
  end.

(** The requests for which a promise was obtained: those before the first
    throw. *)
Fixpoint promised {A} (thrown : A -> option Thrown) (data : list A) : list A :=
  match data with
  | [] => []
  | x :: rest =>
      match thrown x with
      | Some _ => []
      | None => x :: promised thrown rest
      end
  end.

(** What the first throwing call of [send] throws. *)
Fixpoint firstThrown {A} (thrown : A -> option Thrown) (data : list A) : option Thrown :=
  match data with
  | [] => None
  | x :: rest =>
      match thrown x with
      | Some e => Some e
      | None => firstThrown thrown rest
      end
  end.

(** Whether [send] throws for a command when [st] is the current state. *)
Definition throwsIn (st : State (W := W)) (c : Command) : option Thrown :=
  throws (s3 (this st)) c (remote st).

(** The promise that the [async] callback of [downloadFiles] returns for
    a request: rejected at once when [send] throws, and otherwise the
    promise of [send] followed by the reading of the stream. *)
Definition downloadPromise (st : State (W := W)) (file : DownloadFileDto.t)
    : Promise (W := W) Buffer :=
  match throwsIn st (getCommand file) with
  | Some e => fun w => (Rejected e, w)
  | None =>
      Promise_then
        (send (s3 (this st)) (getCommand file) : Promise GetObjectCommandOutput) readAll
  end.

(** Every remote call of [call] goes well from [st]: no call of [send]
    throws, every promise of the SDK is fulfilled, and every get-object
    answer has a body stream that ends normally. *)
Definition allGoesWell {R} (call : Call R) (st : State (W := W)) : Prop :=
  match call with
  | UploadFiles sch data =>
      Forall (fun file => throwsIn st (putCommand file) = None) data
      /\ exists answers : list unit,
          (settleAll sch
             (map (fun file => send (s3 (this st)) (putCommand file) : Promise unit) data)
             (remote st)).1
          = map (fun answer => Some (Fulfilled answer)) answers
  | DownloadFiles sch data =>
      Forall (fun file => throwsIn st (getCommand file) = None) data
      /\ exists streams : list Readable,
          (settleAll sch
             (map (fun file => send (s3 (this st)) (getCommand file)
                               : Promise GetObjectCommandOutput) data)
             (remote st)).1
          = map (fun stream => Some (Fulfilled {| Body := Some stream |})) streams
          /\ Forall (fun stream => failure stream = None) streams
  | DeleteFiles sch data =>
      Forall (fun file => throwsIn st (deleteCommand file) = None) data
      /\ exists answers : list unit,
          (settleAll sch
             (map (fun file => send (s3 (this st)) (deleteCommand file) : Promise unit) data)
             (remote st)).1
          = map (fun answer => Some (Fulfilled answer)) answers
  | ListFiles data =>
      throwsIn st (listCommand data) = None
      /\ exists response : ListObjectsV2CommandOutput,
          (send (s3 (this st)) (listCommand data) (remote st)).1 = Fulfilled response
  | GetSignedUrl data =>
      exists url,
        (generateSignedUrl (s3 (this st)) (signedCommand data)
           (nullish (GetSignedUrlDto.expiresIn data) 3600) (remote st)).1 = Fulfilled url
  end.

End Service.

End Declared.

(** The plain client seen as a declared one: it never throws and its
    get-object answers always have their [Body]. *)
Definition declare {W : Type}
    (send : S3Client -> forall c : Command, W -> Settled (OutputOf c) * W)
    (client : S3Client) (c : Command) : W -> Settled (Declared.OutputOf c) * W :=
  match c as c0
        return (W -> Settled (OutputOf c0) * W) -> W -> Settled (Declared.OutputOf c0) * W
  with
  | PutObjectCommand _ _ _ _ => fun p => p
  | GetObjectCommand _ _ =>
      fun p w =>
        let '(o, w') := p w in
        (Settled_bind o (fun response =>
           Fulfilled {| Declared.Body := Some (Body response) |}), w')
  | ListObjectsV2Command _ _ => fun p => p
  | DeleteObjectCommand _ _ => fun p => p
  end (send client c).

Definition neverThrows {W : Type} : S3Client -> Command -> W -> option Thrown :=
  fun _ _ _ => None.

(** Test doubles for the declared client: [send] mocked to throw [error]
    for the commands on the key [badKey], and a get-object answer without
    [Body]. *)
Definition throwsOnKey {W : Type} (badKey : string) (error : Thrown)
    : S3Client -> Command -> W -> option Thrown :=
  fun _ c _ =>
    match c with
    | PutObjectCommand _ Key _ _ | GetObjectCommand _ Key | DeleteObjectCommand _ Key =>
        if String.eqb Key badKey then Some error else None
    | ListObjectsV2Command _ _ => None
    end.

Definition withoutBody (c : Command) : Declared.OutputOf c :=
  match c as c0 return Declared.OutputOf c0 with
  | PutObjectCommand _ _ _ _ => tt
  | GetObjectCommand _ _ => {| Declared.Body := None |}
  | ListObjectsV2Command _ _ => {| Contents := None |}
  | DeleteObjectCommand _ _ => tt
  end.

Definition mockResolvedTo {W : Type} (value : forall c : Command, Declared.OutputOf c)
    : S3Client -> forall c : Command, W -> Settled (Declared.OutputOf c) * W :=
  fun _ c w => (Fulfilled (value c), w).

Definition engineTypeError : Thrown :=
  ErrorInstance "TypeError" "stream is not async iterable"
    (Some "TypeError: stream is not async iterable").

Definition syncFailure : Thrown :=
  ErrorInstance "Error" "client destroyed" (Some "Error: client destroyed").
(** * Properties *)

(** ** Lists: [map] against lookup, update and [replicate] *)

Lemma lookup_map {A B} (f : A -> B) (l : list A) (i : nat) :
  map f l !! i = option_map f (l !! i).
Proof. exact (list_lookup_fmap f l i). Qed.

Lemma insert_map {A B} (f : A -> B) (l : list A) (i : nat) (x : A) :
  <[i := f x]> (map f l) = map f (<[i := x]> l).
Proof. symmetry. exact (list_fmap_insert f l i x). Qed.

Lemma replicate_map {A B} (f : A -> B) (n : nat) (x : A) :
  map f (replicate n x) = replicate n (f x).
Proof. exact (fmap_replicate f n x). Qed.

(** ** The scheduler and [Promise.all] *)

Section Scheduler.

Context {W A : Type}.
Implicit Types (promises : list (Promise (W := W) A)) (order : list nat).
Implicit Types (slots : list (option (Settled A))) (w : W).

Lemma handleAll_length promises order slots w :
  length (handleAll promises order slots w).1 = length slots.
Proof.
  revert slots w. induction order as [|i order IH]; intros slots w; simpl; [done|].
  destruct (promises !! i) as [p|]; [|apply IH].
  destruct (slots !! i) as [[o|]|]; try apply IH.
  destruct (p w) as [o w']. rewrite IH. apply length_insert.
Qed.

(** Induction over the steps of the remote side: a relation between the
    slots and the remote world that every handled request preserves holds
    at the end. *)
Lemma handleAll_invariant (J : list (option (Settled A)) -> W -> Prop) promises :
  (forall i p slots w,
      promises !! i = Some p -> slots !! i = Some None -> J slots w ->
      J (<[i := Some (p w).1]> slots) (p w).2) ->
  forall order slots w,
    J slots w ->
    J (handleAll promises order slots w).1 (handleAll promises order slots w).2.
Proof.
  intros Hstep order. induction order as [|i order IH]; intros slots w HJ; simpl; [done|].
  destruct (promises !! i) as [p|] eqn:Hp; [|by apply IH].
  destruct (slots !! i) as [[o|]|] eqn:Hs; try by apply IH.
  specialize (Hstep i p slots w Hp Hs HJ).
  destruct (p w) as [o w']. by apply IH.
Qed.

(** A settled promise stays settled. *)
Lemma handleAll_keeps promises order slots w i o :
  slots !! i = Some (Some o) ->
  (handleAll promises order slots w).1 !! i = Some (Some o).
Proof.
  intros Hi.
  apply (handleAll_invariant (fun slots _ => slots !! i = Some (Some o))); [|done].
  intros j p slots' w' _ Hj Hslot.
  rewrite list_lookup_insert_ne; [done|]. intros ->. congruence.
Qed.

(** Every request that the order names gets handled. *)
Lemma handleAll_covers promises order slots w i :
  length slots = length promises -> i < length promises -> i ∈ order ->
  exists o, (handleAll promises order slots w).1 !! i = Some (Some o).
Proof.
  intros Hlen Hi. revert slots w Hlen.
  induction order as [|j order IH]; intros slots w Hlen Hin; [by apply elem_of_nil in Hin|].
  destruct (decide (i = j)) as [<-|Hne].
  - cbn [handleAll].
    destruct (promises !! i) as [p|] eqn:Hp;
      [|apply lookup_ge_None in Hp; unfold Promise in *; lia].
    destruct (slots !! i) as [[o|]|] eqn:Hs; [| |apply lookup_ge_None in Hs; lia].
    + exists o. by apply handleAll_keeps.
    + destruct (p w) as [o w']. exists o. apply handleAll_keeps.
      apply list_lookup_insert_eq. lia.
  - apply elem_of_cons in Hin as [?|Hin]; [done|].
    cbn [handleAll]. destruct (promises !! j) as [p|]; [|by apply IH].
    destruct (slots !! j) as [[o|]|]; try by apply IH.
    destruct (p w) as [o w']. apply IH; [|done]. by rewrite length_insert.
Qed.

Lemma settleAll_length sch promises w :
  length (settleAll sch promises w).1 = length promises.
Proof. unfold settleAll. rewrite handleAll_length. apply length_replicate. Qed.

(** Under every schedule, every promise of the batch settles. *)
Lemma settleAll_total sch promises w i :
  i < length promises ->
  exists o, (settleAll sch promises w).1 !! i = Some (Some o).
Proof.
  intros Hi. unfold settleAll. apply handleAll_covers.
  - apply length_replicate.
  - done.
  - apply elem_of_app. right. apply elem_of_seq. lia.
Qed.

(** A relation that every request preserves, whatever the moment at which
    it is handled, holds once the batch is settled. *)
Lemma settleAll_invariant (J : list (option (Settled A)) -> W -> Prop) sch promises w :
  (forall i p slots w,
      promises !! i = Some p -> slots !! i = Some None -> J slots w ->
      J (<[i := Some (p w).1]> slots) (p w).2) ->
  J (replicate (length promises) None) w ->
  J (settleAll sch promises w).1 (settleAll sch promises w).2.
Proof. intros Hstep H0. unfold settleAll. by apply handleAll_invariant. Qed.

Lemma firstRejected_Some order slots e :
  firstRejected order slots = Some e ->
  exists i, i ∈ order /\ slots !! i = Some (Some (Rejected e)).
Proof.
  induction order as [|i order IH]; simpl; [done|].
  destruct (slots !! i) as [[[v|e']|]|] eqn:Hi; intros H.
  - destruct (IH H) as (j & ? & ?). exists j. split; [by right|done].
  - injection H as ->. exists i. split; [by left|done].
  - destruct (IH H) as (j & ? & ?). exists j. split; [by right|done].
  - destruct (IH H) as (j & ? & ?). exists j. split; [by right|done].
Qed.

Lemma firstRejected_None order slots i e :
  firstRejected order slots = None -> i ∈ order ->
  slots !! i <> Some (Some (Rejected e)).
Proof.
  induction order as [|j order IH]; simpl; intros H Hin; [by apply elem_of_nil in Hin|].
  apply elem_of_cons in Hin as [->|Hin].
  - destruct (slots !! j) as [[[v|e']|]|]; congruence.
  - destruct (slots !! j) as [[[v|e']|]|]; by try apply IH.
Qed.

(** If some promise is rejected, a first one is. *)
Lemma firstRejected_exists order slots i e :
  i ∈ order -> slots !! i = Some (Some (Rejected e)) ->
  exists e', firstRejected order slots = Some e'.
Proof.
  intros Hin Hi. destruct (firstRejected order slots) as [e'|] eqn:H; [by exists e'|].
  by destruct (firstRejected_None order slots i e H Hin).
Qed.

Lemma fulfilledValues_map (values : list A) :
  fulfilledValues (map (fun v => Some (Fulfilled v)) values) = values.
Proof.
  unfold fulfilledValues. induction values as [|v values IH]; [done|].
  cbn. f_equal. exact IH.
Qed.

(** Requests that leave the remote world as it is are answered the same
    under every schedule. *)
Lemma settleAll_readonly sch promises w (answers : list (Settled A)) :
  length answers = length promises ->
  (forall i p, promises !! i = Some p -> exists a, answers !! i = Some a /\ p w = (a, w)) ->
  settleAll sch promises w = (map Some answers, w).
Proof.
  intros Hlen Hpure.
  pose (J := fun slots w' =>
               w' = w /\ forall i o, slots !! i = Some (Some o) -> answers !! i = Some o).
  assert (HJ : J (settleAll sch promises w).1 (settleAll sch promises w).2).
  { apply settleAll_invariant.
    - intros i p slots w' Hp Hs [-> Hslots].
      destruct (Hpure i p Hp) as (a & Ha & Hrun). rewrite Hrun. split; [done|].
      intros j o. destruct (decide (i = j)) as [<-|Hne].
      + rewrite list_lookup_insert_eq by (by eapply lookup_lt_Some).
        by intros [= <-].
      + rewrite list_lookup_insert_ne by done. apply Hslots.
    - split; [done|]. intros i o Hi. apply lookup_replicate in Hi as [? _]. done. }
  destruct HJ as [Hw Hslots].
  rewrite (surjective_pairing (settleAll sch promises w)). f_equal; [|done].
  apply list_eq. intros i. rewrite lookup_map.
  destruct (decide (i < length promises)) as [Hi|Hi].
  - destruct (settleAll_total sch promises w i Hi) as [o Ho].
    rewrite Ho. by rewrite (Hslots i o Ho).
  - rewrite (proj2 (lookup_ge_None answers i)) by lia.
    apply lookup_ge_None. rewrite settleAll_length. lia.
Qed.

(** A batch of one request: the schedule does not matter. *)
Lemma settleAll_singleton sch (p : Promise (W := W) A) w :
  settleAll sch [p] w = ([Some (p w).1], (p w).2).
Proof.
  pose (J := fun slots w' =>
               (slots = [None] /\ w' = w)
               \/ (slots = [Some (p w).1] /\ w' = (p w).2)).
  assert (HJ : J (settleAll sch [p] w).1 (settleAll sch [p] w).2).
  { apply settleAll_invariant.
    - intros i q slots w' Hq Hs [[-> ->]|[-> ->]].
      + destruct i as [|i]; [|done]. injection Hq as <-. by right.
      + destruct i as [|i]; done.
    - by left. }
  destruct (settleAll_total sch [p] w 0) as [o Ho]; [cbn; lia|].
  rewrite (surjective_pairing (settleAll sch [p] w)).
  destruct HJ as [[Hs _]|[-> ->]]; [|done].
  rewrite Hs in Ho. done.
Qed.

End Scheduler.

(** ** The five methods, summarised *)

Section MethodFacts.

Context {W : Type}.
Variable send : S3Client -> forall c : Command, W -> Settled (OutputOf c) * W.
Variable generateSignedUrl : S3Client -> Command -> Z -> W -> Settled string * W.

(** A callback that only issues a request leaves everything but the
    journal alone, so [data.map] collects the promises in batch order and
    journals the requests in that order. *)
Lemma Array_map_issue {A B} (callback : A -> Async (W := W) B)
    (g : S3StorageService -> A -> B) (r : A -> Request) :
  (forall x st, callback x st = (Fulfilled (g (this st) x), add_issued (r x) st)) ->
  forall data st,
    Array_map callback data st =
    (Fulfilled (map (g (this st)) data),
     {| this := this st; remote := remote st; logged := logged st;
        issued := issued st ++ map r data |}).
Proof.
  intros Hcb data. induction data as [|x data IH]; intros st.
  - destruct st. cbn. by rewrite app_nil_r.
  - cbn [Array_map]. unfold bind at 1. rewrite Hcb.
    unfold bind at 1. rewrite IH. cbn. by rewrite <- app_assoc.
Qed.

(** Every method logs its start notice, issues its requests, awaits, and
    logs the closing lines that fit the outcome; it returns what the
    awaited promise settled to. *)
Lemma invoke_run {R} (call : Call R) (st : State (W := W)) :
  invoke send generateSignedUrl call st =
  ((awaited send generateSignedUrl call st).1,
   {| this := this st;
      remote := (awaited send generateSignedUrl call st).2;
      logged :=
        logged st
        ++ LogLine (context (logger (this st))) (startNotice call)
           :: closing call (context (logger (this st)))
                (awaited send generateSignedUrl call st).1;
      issued := issued st ++ requestsOf call (this st) |}).
Proof.
  destruct call as [sch data|sch data|sch data|data|data]; cbn [invoke awaited].
  - unfold uploadFiles, try_catch. unfold bind at 1. cbn [logger_log].
    unfold bind at 1.
    rewrite (Array_map_issue _
               (fun self file => send (s3 self) (putCommand file) : Promise unit)
               (fun file => Sent (putCommand file))); [|done].
    cbn. fold (uploadPromises send (this st) data).
    generalize (Promise_all sch (uploadPromises send (this st) data)). intros P.
    unfold bind, await, logger_log, logger_error, throw, bind,
      add_logged, set_remote. cbn.
    destruct (P (remote st)) as [[values|e] w']; cbn; by rewrite <- !app_assoc.
  - unfold downloadFiles, try_catch. unfold bind at 1. cbn [logger_log].
    unfold bind at 1.
    rewrite (Array_map_issue _
               (fun self file =>
                  Promise_then
                    (send (s3 self) (getCommand file) : Promise GetObjectCommandOutput)
                    readAll)
               (fun file => Sent (getCommand file))); [|done].
    cbn. unfold downloadPromises, readPromises. rewrite map_map.
    generalize (Promise_all sch
                  (map (fun file =>
                          Promise_then
                            (send (s3 (this st)) (getCommand file)
                             : Promise GetObjectCommandOutput) readAll) data)).
    intros P.
    unfold bind, await, logger_log, logger_error, throw, bind,
      add_logged, set_remote. cbn.
    destruct (P (remote st)) as [[values|e] w']; cbn; by rewrite <- ?app_assoc.
  - unfold deleteFiles, try_catch. unfold bind at 1. cbn [logger_log].
    unfold bind at 1.
    rewrite (Array_map_issue _
               (fun self file => send (s3 self) (deleteCommand file) : Promise unit)
               (fun file => Sent (deleteCommand file))); [|done].
    cbn. fold (deletePromises send (this st) data).
    generalize (Promise_all sch (deletePromises send (this st) data)). intros P.
    unfold bind, await, logger_log, logger_error, throw, bind,
      add_logged, set_remote. cbn.
    destruct (P (remote st)) as [[values|e] w']; cbn; by rewrite <- !app_assoc.
  - unfold listFiles, try_catch, bind, await, s3_send, logger_log, logger_error, throw, bind, ret, add_logged, set_remote, add_issued. cbn.
    fold (listCommand data).
    destruct (send (s3 (this st)) (listCommand data) (remote st)) as [[response|e] w'];
      cbn; by rewrite <- !app_assoc.
  - unfold getSignedUrl, try_catch, bind, await, presigner_getSignedUrl, logger_log,
      logger_error, throw, bind, ret, add_logged, set_remote,
      add_issued. cbn.
    fold (signedCommand data).
    destruct (generateSignedUrl (s3 (this st)) (signedCommand data) _ (remote st))
      as [[url|e] w'];
      cbn; by rewrite <- !app_assoc.
Qed.

End MethodFacts.

(** ** Frame, logging and failures *)

Section Gateway.

Context {W : Type}.
Variable send : S3Client -> forall c : Command, W -> Settled (OutputOf c) * W.
Variable generateSignedUrl : S3Client -> Command -> Z -> W -> Settled string * W.

Local Abbreviation run := (invoke send generateSignedUrl).

(** C9.  No method changes the service object: after any call of
    [uploadFiles], [downloadFiles], [deleteFiles], [listFiles] or
    [getSignedUrl], from any state and under any behaviour of the SDK, the
    [s3] client and the [logger] of the service are the ones it had before
    the call. *)
Theorem service_object_unchanged {R} (call : Call R) (st : State (W := W)) :
  this (run call st).2 = this st
  /\ s3 (this (run call st).2) = s3 (this st)
  /\ logger (this (run call st).2) = logger (this st).
Proof. rewrite invoke_run. by cbn. Qed.

Lemma notices_run {R} (call : Call R) (st : State (W := W)) :
  notices send generateSignedUrl call st =
  LogLine (context (logger (this st))) (startNotice call)
  :: closing call (context (logger (this st))) (run call st).1.
Proof.
  unfold notices. rewrite invoke_run. cbn [logged fst snd].
  by rewrite drop_app_length.
Qed.

Lemma classOf_start {R} (call : Call R) ctx :
  classOf (LogLine ctx (startNotice call)) = Some StartNotice.
Proof. destruct call; reflexivity. Qed.

Lemma classOf_completion {R} (call : Call R) ctx result message :
  completionNotice call result = Some message ->
  classOf (LogLine ctx message) = Some CompletionNotice.
Proof. destruct call; cbn; intros [= <-]; done. Qed.

(** C8, amended.  Every call logs per batch, never per item: first its
    start notice, then nothing else than the line that fits its outcome,
    which is one completion notice after a success (none for
    [downloadFiles]) and one error notice carrying the stack of the failure
    after a rejection.  So a call emits a start notice and, but for a
    successful download, one notice of a second class. *)
Theorem notices_per_call {R} (call : Call R) (st : State (W := W)) :
  let ctx := context (logger (this st)) in
  notices send generateSignedUrl call st =
    LogLine ctx (startNotice call) :: closing call ctx (run call st).1
  /\ map classOf (notices send generateSignedUrl call st) =
     Some StartNotice
     :: match (run call st).1 with
        | Fulfilled result =>
            match completionNotice call result with
            | Some _ => [Some CompletionNotice]
            | None => []
            end
        | Rejected _ => [Some ErrorNotice]
        end.
Proof.
  intros ctx. subst ctx. split; [apply notices_run|].
  rewrite notices_run. cbn [map]. rewrite classOf_start. f_equal.
  destruct (run call st).1 as [result|e]; cbn [closing]; [|done].
  destruct (completionNotice call result) as [message|] eqn:Hm; [|done].
  cbn [map]. by rewrite (classOf_completion call _ result message Hm).
Qed.

Lemma Promise_all_fst {A} sch (promises : list (Promise (W := W) A)) w :
  (Promise_all sch promises w).1 =
  match firstRejected (settled sch ++ seq 0 (length promises))
          (settleAll sch promises w).1 with
  | Some e => Rejected e
  | None => Fulfilled (fulfilledValues (settleAll sch promises w).1)
  end.
Proof.
  unfold Promise_all. destruct (settleAll sch promises w) as [slots w']. cbn.
  by destruct (firstRejected _ slots).
Qed.

Lemma Promise_all_snd {A} sch (promises : list (Promise (W := W) A)) w :
  (Promise_all sch promises w).2 = (settleAll sch promises w).2.
Proof.
  unfold Promise_all. destruct (settleAll sch promises w) as [slots w']. cbn.
  by destruct (firstRejected _ slots).
Qed.

Lemma Promise_all_singleton {A} sch (p : Promise (W := W) A) w :
  (Promise_all sch [p] w).1 = Settled_bind (p w).1 (fun v => Fulfilled [v]).
Proof.
  rewrite Promise_all_fst, settleAll_singleton. cbn [fst length seq].
  destruct (p w).1 as [v|e].
  - assert (Hnone : forall order, firstRejected order [Some (Fulfilled v)] = None).
    { intros order. induction order as [|[|i] order IH]; done. }
    by rewrite Hnone.
  - assert (Hsome : forall order,
               firstRejected (order ++ [0]) [Some (Rejected e : Settled A)] = Some e).
    { intros order. induction order as [|[|i] order IH]; done. }
    by rewrite Hsome.
Qed.

Lemma elem_of_reasons {A} (slots : list (option (Settled A))) e :
  e ∈ reasons slots <-> exists i, slots !! i = Some (Some (Rejected e)).
Proof.
  unfold reasons. rewrite list_elem_of_omap. split.
  - intros (slot & Hin & Hslot). apply list_elem_of_lookup in Hin as [i Hi].
    exists i. destruct slot as [[v|e']|]; try done. by injection Hslot as ->.
  - intros [i Hi]. exists (Some (Rejected e)). split; [|done].
    apply list_elem_of_lookup. by exists i.
Qed.

(** In a batch, some rejected promise means that [Promise.all] is rejected,
    with the reason of one of the rejected promises. *)
Lemma Promise_all_rejects {A} sch (promises : list (Promise (W := W) A)) w :
  reasons (settleAll sch promises w).1 <> [] ->
  exists e,
    firstRejected (settled sch ++ seq 0 (length promises)) (settleAll sch promises w).1
      = Some e
    /\ e ∈ reasons (settleAll sch promises w).1
    /\ (Promise_all sch promises w).1 = Rejected e.
Proof.
  intros Hne.
  destruct (reasons (settleAll sch promises w).1) as [|e' l] eqn:Hr; [done|].
  assert (He' : e' ∈ reasons (settleAll sch promises w).1) by (rewrite Hr; by left).
  apply elem_of_reasons in He' as [i Hi].
  assert (Hlt : i < length promises).
  { rewrite <- (settleAll_length sch promises w). by eapply lookup_lt_Some. }
  destruct (firstRejected_exists (settled sch ++ seq 0 (length promises))
              (settleAll sch promises w).1 i e') as [e He]; [|done|].
  { apply elem_of_app. right. apply elem_of_seq. lia. }
  exists e. split; [done|]. split.
  - rewrite <- Hr. apply elem_of_reasons.
    apply firstRejected_Some in He as (j & _ & Hj). by exists j.
  - by rewrite Promise_all_fst, He.
Qed.

Lemma length_uploadPromises self data :
  length (uploadPromises send self data) = length data.
Proof. apply length_map. Qed.

Lemma length_downloadPromises self data :
  length (downloadPromises send self data) = length data.
Proof. unfold downloadPromises, readPromises. by rewrite !length_map. Qed.

Lemma length_deletePromises self data :
  length (deletePromises send self data) = length data.
Proof. apply length_map. Qed.

(** C3, amended.  If remote calls of a method reject, the method rejects
    with the reason [e] of the first of them to settle, passed on as it is,
    and it logs, after its start notice and before the rejection reaches the
    caller, exactly one error line, which carries the stack of [e] (the
    empty string when [e] is not an [Error]). *)
Theorem first_rejection_propagated {R} (call : Call R) (st : State (W := W)) :
  remoteRejections send generateSignedUrl call st <> [] ->
  exists e,
    firstRejection send generateSignedUrl call st = Some e
    /\ e ∈ remoteRejections send generateSignedUrl call st
    /\ (run call st).1 = Rejected e
    /\ notices send generateSignedUrl call st =
       [LogLine (context (logger (this st))) (startNotice call);
        ErrorLine (context (logger (this st))) (failureNotice call) (stackTrace e)].
Proof.
  intros Hne.
  assert (Hawait : exists e,
             firstRejection send generateSignedUrl call st = Some e
             /\ e ∈ remoteRejections send generateSignedUrl call st
             /\ (awaited send generateSignedUrl call st).1 = Rejected e).
  { destruct call as [sch data|sch data|sch data|data|data];
      cbn [remoteRejections firstRejection awaited] in *.
    - destruct (Promise_all_rejects sch _ _ Hne) as (e & H1 & H2 & H3).
      exists e. rewrite length_uploadPromises in H1.
      split; [done|]. split; [done|]. cbn. by rewrite H3.
    - destruct (Promise_all_rejects sch _ _ Hne) as (e & H1 & H2 & H3).
      exists e. rewrite length_downloadPromises in H1. done.
    - destruct (Promise_all_rejects sch _ _ Hne) as (e & H1 & H2 & H3).
      exists e. rewrite length_deletePromises in H1.
      split; [done|]. split; [done|]. cbn. by rewrite H3.
    - destruct (send (s3 (this st)) (listCommand data) (remote st)) as [[response|e] w'];
        [done|].
      exists e. cbn. split; [done|]. split; [by left|done].
    - destruct (generateSignedUrl (s3 (this st)) (signedCommand data) _ (remote st))
        as [[url|e] w']; [done|].
      exists e. cbn. split; [done|]. split; [by left|done]. }
  destruct Hawait as (e & H1 & H2 & H3). exists e.
  split; [done|]. split; [done|].
  rewrite notices_run, invoke_run. cbn [fst]. rewrite H3. done.
Qed.

End Gateway.

(** ** What is sent and what comes back *)

Lemma push_each_app pending chunks : push_each pending chunks = (chunks ++ pending)%list.
Proof.
  revert chunks. induction pending as [|chunk pending IH]; intros chunks; cbn.
  - by rewrite app_nil_r.
  - by rewrite IH, <- app_assoc.
Qed.

(** Reading a stream that ends normally gives the concatenation of all its
    chunks. *)
Lemma readAll_drains stream :
  failure stream = None ->
  readAll {| Body := stream |} = Fulfilled (Buffer_concat (emitted stream)).
Proof.
  intros Hok. unfold readAll, for_await_push. cbn. rewrite Hok. cbn.
  by rewrite push_each_app.
Qed.

Section Requests.

Context {W : Type}.
Variable send : S3Client -> forall c : Command, W -> Settled (OutputOf c) * W.

(** The methods that only use [send], seen as calls of a service whose
    presigner never answers. *)
Local Abbreviation run :=
  (invoke send (fun _ _ _ w => (Rejected (OtherValue EmptyString), w))).

(** Continuations commute with the scheduler: they do not touch the remote
    world. *)
Lemma handleAll_then {A B} (k : A -> Settled B) (promises : list (Promise (W := W) A))
    order slots w :
  handleAll (map (fun p => Promise_then p k) promises) order
    (map (option_map (fun o => Settled_bind o k)) slots) w =
  (map (option_map (fun o => Settled_bind o k)) (handleAll promises order slots w).1,
   (handleAll promises order slots w).2).
Proof.
  revert slots w. induction order as [|i order IH]; intros slots w; [done|].
  cbn [handleAll]. rewrite !lookup_map.
  destruct (promises !! i) as [p|]; cbn [option_map]; [|apply IH].
  destruct (slots !! i) as [[o|]|]; cbn [option_map]; try apply IH.
  unfold Promise_then at 1. destruct (p w) as [o w'].
  rewrite <- IH. f_equal.
  exact (insert_map (option_map (fun o => Settled_bind o k)) slots i (Some o)).
Qed.

Lemma settleAll_then {A B} (k : A -> Settled B) sch (promises : list (Promise (W := W) A)) w :
  settleAll sch (map (fun p => Promise_then p k) promises) w =
  (map (option_map (fun o => Settled_bind o k)) (settleAll sch promises w).1,
   (settleAll sch promises w).2).
Proof.
  unfold settleAll. rewrite length_map, <- handleAll_then. f_equal.
  symmetry. exact (replicate_map (option_map (fun o => Settled_bind o k)) _ None).
Qed.

Lemma firstRejected_fulfilled {A} order (values : list A) :
  firstRejected order (map (fun v => Some (Fulfilled v)) values) = None.
Proof.
  induction order as [|i order IH]; [done|]. cbn [firstRejected].
  rewrite lookup_map. by destruct (values !! i).
Qed.

(** The buffers of a download, from the streams that answered it. *)
Lemma downloadFiles_reads sch data (st : State (W := W)) (streams : list Readable) :
  (settleAll sch (readPromises send (this st) data) (remote st)).1 =
    map (fun stream => Some (Fulfilled {| Body := stream |})) streams ->
  Forall (fun stream => failure stream = None) streams ->
  (downloadFiles send sch data st).1 =
    Fulfilled (map (fun stream => Buffer_concat (emitted stream)) streams)
  /\ length (map (fun stream => Buffer_concat (emitted stream)) streams) = length data.
Proof.
  intros Hreads Hok. split.
  - change (downloadFiles send sch data st)
      with (run (DownloadFiles sch data) st).
    rewrite invoke_run. cbn [fst awaited]. rewrite Promise_all_fst.
    unfold downloadPromises. rewrite settleAll_then. cbn [fst]. rewrite Hreads.
    rewrite map_map. cbn [option_map Settled_bind].
    assert (Hmap :
      map (fun stream => Some (readAll {| Body := stream |})) streams =
      map (fun v => Some (Fulfilled v))
        (map (fun stream => Buffer_concat (emitted stream)) streams)).
    { rewrite map_map. apply map_ext_Forall.
      eapply Forall_impl; [exact Hok|]. intros stream Hs. cbn beta.
      by rewrite readAll_drains. }
    rewrite Hmap, firstRejected_fulfilled. by rewrite fulfilledValues_map.
  - rewrite length_map.
    rewrite <- (length_map (fun stream => Some (Fulfilled {| Body := stream |})) streams).
    rewrite <- Hreads, settleAll_length. unfold readPromises. apply length_map.
Qed.

(** C2.  When every read of a batch succeeds, that is when every
    [GetObject] request is answered with a stream and every stream ends
    normally, [downloadFiles] returns one buffer per request, in the order
    of the requests, and the i-th buffer is the concatenation of all the
    chunks of the stream that answered the i-th request. *)
Theorem downloadFiles_buffers sch data (st : State (W := W)) (streams : list Readable) :
  (settleAll sch (readPromises send (this st) data) (remote st)).1 =
    map (fun stream => Some (Fulfilled {| Body := stream |})) streams ->
  Forall (fun stream => failure stream = None) streams ->
  (downloadFiles send sch data st).1 =
    Fulfilled (map (fun stream => Buffer_concat (emitted stream)) streams)
  /\ length (map (fun stream => Buffer_concat (emitted stream)) streams) = length data.
Proof. apply downloadFiles_reads. Qed.

(** C6.  When the answer to the list request reports no contents, be it
    without a [Contents] field or with an empty one, [listFiles] is
    fulfilled with the empty sequence of keys. *)
Theorem listFiles_no_contents data (st : State (W := W)) response :
  (send (s3 (this st))
     (ListObjectsV2Command (ListFilesDto.bucket data)
        (or_else (ListFilesDto.prefix data) EmptyString))
     (remote st)).1 = Fulfilled response ->
  Contents response = None \/ Contents response = Some [] ->
  (listFiles send data st).1 = Fulfilled [].
Proof.
  intros Hsend Hnone.
  change (listFiles send data st) with (run (ListFiles data) st).
  rewrite invoke_run. cbn [fst awaited]. unfold listCommand. rewrite Hsend. cbn.
  by destruct Hnone as [-> | ->].
Qed.

Lemma uploadFiles_issued sch data (st : State (W := W)) i file :
  data !! i = Some file ->
  issued (uploadFiles send sch data st).2 !! (length (issued st) + i) =
  Some (Sent (putCommand file)).
Proof.
  intros Hi.
  change (uploadFiles send sch data st)
    with (run (UploadFiles sch data) st).
  rewrite invoke_run. cbn [snd issued requestsOf].
  rewrite lookup_app_r by lia.
  replace (length (issued st) + i - length (issued st)) with i by lia.
  by rewrite lookup_map, Hi.
Qed.

(** C4, amended.  For every request of an upload batch, the put-object
    command sent for it asks for content-type application/octet-stream
    when the request has no content-type, and for the supplied content-type
    when the request supplies a non-empty one. *)
Theorem contentType_sent sch data (st : State (W := W)) i file :
  data !! i = Some file ->
  (UploadFileDto.contentType file = None ->
   issued (uploadFiles send sch data st).2 !! (length (issued st) + i) =
   Some (Sent (PutObjectCommand (UploadFileDto.bucket file) (UploadFileDto.key file)
                 (UploadFileDto.content file) "application/octet-stream")))
  /\ (forall supplied,
        UploadFileDto.contentType file = Some supplied -> supplied <> EmptyString ->
        issued (uploadFiles send sch data st).2 !! (length (issued st) + i) =
        Some (Sent (PutObjectCommand (UploadFileDto.bucket file) (UploadFileDto.key file)
                      (UploadFileDto.content file) supplied))).
Proof.
  intros Hi. rewrite (uploadFiles_issued sch data st i file Hi). unfold putCommand.
  split.
  - by intros ->.
  - intros supplied -> Hne. by destruct supplied.
Qed.

(** C10.  For every request of an upload batch whose content-type is
    present and empty, the put-object command sent for it asks for
    content-type application/octet-stream, as it does when the field is
    absent. *)
Theorem empty_contentType_defaulted sch data (st : State (W := W)) i file :
  data !! i = Some file ->
  UploadFileDto.contentType file = Some EmptyString ->
  issued (uploadFiles send sch data st).2 !! (length (issued st) + i) =
  Some (Sent (PutObjectCommand (UploadFileDto.bucket file) (UploadFileDto.key file)
                (UploadFileDto.content file) "application/octet-stream")).
Proof.
  intros Hi Hct. rewrite (uploadFiles_issued sch data st i file Hi). unfold putCommand.
  by rewrite Hct.
Qed.

End Requests.

Section Signing.

Context {W : Type}.
Variable generateSignedUrl : S3Client -> Command -> Z -> W -> Settled string * W.

(** C7.  Without an expiry in the request, [getSignedUrl] asks the
    presigner for 3600 seconds; and whatever the expiry, the string that
    the presigner produces is the string that the caller receives. *)
Theorem getSignedUrl_default_and_passthrough data (st : State (W := W)) :
  (GetSignedUrlDto.expiresIn data = None ->
   issued (getSignedUrl generateSignedUrl data st).2 =
   (issued st
    ++ [Presigned (s3 (this st))
          (GetObjectCommand (GetSignedUrlDto.bucket data) (GetSignedUrlDto.key data))
          3600])%list)
  /\ (forall url,
        (generateSignedUrl (s3 (this st))
           (GetObjectCommand (GetSignedUrlDto.bucket data) (GetSignedUrlDto.key data))
           (nullish (GetSignedUrlDto.expiresIn data) 3600) (remote st)).1
        = Fulfilled url ->
        (getSignedUrl generateSignedUrl data st).1 = Fulfilled url).
Proof.
  change (getSignedUrl generateSignedUrl data st)
    with (invoke (fun _ c w => (Rejected (OtherValue EmptyString), w))
            generateSignedUrl (GetSignedUrl data) st).
  rewrite invoke_run. cbn [fst snd issued awaited requestsOf]. unfold signedCommand.
  split; [by intros ->|done].
Qed.

End Signing.

(** ** Against the reference store *)

Lemma concat_chunksFuel fuel size (content : Buffer) :
  length content <= fuel -> concat (chunksFuel fuel size content) = content.
Proof.
  revert content. induction fuel as [|fuel IH]; intros content Hlen.
  - destruct content; [done|]. cbn in Hlen. lia.
  - destruct content as [|x content]; [done|].
    cbn [chunksFuel concat]. rewrite IH.
    + apply take_drop.
    + rewrite length_drop. cbn in *. lia.
Qed.

(** Whatever the chunk size, the chunks of a stream add up to the stored
    bytes. *)
Lemma concat_toChunks size (content : Buffer) :
  Buffer_concat (toChunks size content) = content.
Proof. by apply concat_chunksFuel. Qed.

(** The store keeps the body and the content-type of the put-object command
    that it accepts. *)
Lemma Store_keeps_put client Bucket Key Body ContentType w :
  refused Bucket Key = None ->
  objects (Store_send client (PutObjectCommand Bucket Key Body ContentType) w).2
    !! (Bucket, Key)
  = Some {| body := Body; storedContentType := ContentType |}.
Proof. intros H. cbn. rewrite H. cbn. by rewrite lookup_insert_eq. Qed.

Section OnStore.

Implicit Types (st : State (W := Store)) (file : UploadFileDto.t).

Lemma onStore_upload_fst sch data st :
  (onStore (UploadFiles sch data) st).1 =
  Settled_bind (Promise_all sch (uploadPromises Store_send (this st) data) (remote st)).1
    (fun _ => Fulfilled tt).
Proof. unfold onStore. by rewrite invoke_run. Qed.

Lemma onStore_upload_remote sch data st :
  remote (onStore (UploadFiles sch data) st).2 =
  (settleAll sch (uploadPromises Store_send (this st) data) (remote st)).2.
Proof. unfold onStore. rewrite invoke_run. cbn. apply Promise_all_snd. Qed.

Lemma onStore_this {R} (call : Call R) st : this (onStore call st).2 = this st.
Proof. unfold onStore. by rewrite invoke_run. Qed.

(** After a fulfilled upload, every request of the batch was accepted. *)
Lemma upload_fulfilled_slots sch data st i file :
  (onStore (UploadFiles sch data) st).1 = Fulfilled tt ->
  data !! i = Some file ->
  (settleAll sch (uploadPromises Store_send (this st) data) (remote st)).1 !! i
  = Some (Some (Fulfilled tt)).
Proof.
  intros Hok Hi. rewrite onStore_upload_fst, Promise_all_fst in Hok.
  destruct (firstRejected _ _) as [e|] eqn:Hfirst; [done|].
  assert (Hlt : i < length (uploadPromises Store_send (this st) data)).
  { rewrite length_uploadPromises. by eapply lookup_lt_Some. }
  destruct (settleAll_total sch _ (remote st) i Hlt) as [[[]|e] Ho]; [done|].
  exfalso. eapply firstRejected_None; [exact Hfirst| |exact Ho].
  apply elem_of_app. right. apply elem_of_seq. lia.
Qed.

(** While a batch of uploads is handled, every accepted request has its
    bytes in the store, provided that requests for the same object carry
    the same bytes. *)
Lemma upload_stores sch data st :
  (forall i j fi fj,
      data !! i = Some fi -> data !! j = Some fj ->
      UploadFileDto.bucket fi = UploadFileDto.bucket fj ->
      UploadFileDto.key fi = UploadFileDto.key fj ->
      UploadFileDto.content fi = UploadFileDto.content fj) ->
  forall i file,
    data !! i = Some file ->
    (settleAll sch (uploadPromises Store_send (this st) data) (remote st)).1 !! i
    = Some (Some (Fulfilled tt)) ->
    refused (UploadFileDto.bucket file) (UploadFileDto.key file) = None
    /\ exists obj,
        objects (settleAll sch (uploadPromises Store_send (this st) data) (remote st)).2
          !! (UploadFileDto.bucket file, UploadFileDto.key file) = Some obj
        /\ body obj = UploadFileDto.content file.
Proof.
  intros Hsame.
  pose (J := fun (slots : list (option (Settled unit))) (w : Store) =>
    forall i file,
      data !! i = Some file -> slots !! i = Some (Some (Fulfilled tt)) ->
      refused (UploadFileDto.bucket file) (UploadFileDto.key file) = None
      /\ exists obj,
          objects w !! (UploadFileDto.bucket file, UploadFileDto.key file) = Some obj
          /\ body obj = UploadFileDto.content file).
  apply (settleAll_invariant J).
  - intros j p slots w Hp Hj HJ i file Hi.
    unfold uploadPromises in Hp. rewrite lookup_map in Hp.
    destruct (data !! j) as [fj|] eqn:Hfj; [|done]. injection Hp as <-.
    unfold putCommand.
    destruct (refused (UploadFileDto.bucket fj) (UploadFileDto.key fj)) as [e|] eqn:Hr.
    + cbn [fst snd].
      destruct (decide (j = i)) as [->|Hne].
      * rewrite list_lookup_insert_eq by (by eapply lookup_lt_Some). done.
      * rewrite list_lookup_insert_ne by done. by apply HJ.
    + cbn [fst snd set_objects objects].
      destruct (decide (j = i)) as [->|Hne].
      * intros _. assert (fj = file) as -> by congruence.
        split; [done|]. eexists. by rewrite lookup_insert_eq.
      * rewrite list_lookup_insert_ne by done. intros Hs.
        destruct (HJ i file Hi Hs) as (Hok & obj & Hobj & Hbody).
        split; [done|].
        destruct (decide ((UploadFileDto.bucket fj, UploadFileDto.key fj)
                          = (UploadFileDto.bucket file, UploadFileDto.key file)))
          as [Heq|Hkey].
        -- rewrite Heq, lookup_insert_eq. eexists. split; [done|]. cbn.
           injection Heq as Hb Hk. by apply (Hsame j i).
        -- rewrite lookup_insert_ne by done. by exists obj.
  - intros i file _ Hi. apply lookup_replicate in Hi as [? _]. done.
Qed.

(** The round trip, for batches in which requests for the same object
    carry the same bytes: a later download, from any state of the store in
    which the objects of the batch are as the upload left them, returns the
    uploaded bytes. *)
Lemma roundtrip sch sch' data st st' :
  (forall i j fi fj,
      data !! i = Some fi -> data !! j = Some fj ->
      UploadFileDto.bucket fi = UploadFileDto.bucket fj ->
      UploadFileDto.key fi = UploadFileDto.key fj ->
      UploadFileDto.content fi = UploadFileDto.content fj) ->
  (onStore (UploadFiles sch data) st).1 = Fulfilled tt ->
  (forall file,
      file ∈ data ->
      objects (remote st') !! (UploadFileDto.bucket file, UploadFileDto.key file)
      = objects (remote (onStore (UploadFiles sch data) st).2)
          !! (UploadFileDto.bucket file, UploadFileDto.key file)) ->
  (onStore (DownloadFiles sch' (map downloadOf data)) st').1
  = Fulfilled (map UploadFileDto.content data).
Proof.
  intros Hsame Hok Hkept.
  pose (streams :=
          map (fun file =>
                 {| emitted := toChunks (highWaterMark (remote st'))
                                 (UploadFileDto.content file);
                    failure := None |}) data).
  pose (answers :=
          map (fun stream => Fulfilled {| Body := stream |}) streams).
  assert (Hreads :
    settleAll sch' (readPromises Store_send (this st') (map downloadOf data)) (remote st')
    = (map Some answers, remote st')).
  { apply settleAll_readonly.
    - unfold answers, streams, readPromises. by rewrite !length_map.
    - intros i p Hp. unfold readPromises in Hp. rewrite !lookup_map in Hp.
      destruct (data !! i) as [file|] eqn:Hi; [|done]. injection Hp as <-.
      pose proof (upload_fulfilled_slots sch data st i file Hok Hi) as Hslot.
      destruct (upload_stores sch data st Hsame i file Hi Hslot)
        as (Hvalid & obj & Hobj & Hbody).
      rewrite <- onStore_upload_remote in Hobj.
      rewrite <- Hkept in Hobj by (apply list_elem_of_lookup; by exists i).
      exists (Fulfilled
                {| Body := {| emitted := toChunks (highWaterMark (remote st'))
                                           (UploadFileDto.content file);
                              failure := None |} |}).
      split.
      + unfold answers, streams. by rewrite !lookup_map, Hi.
      + cbn beta. unfold getCommand, downloadOf.
        cbn [DownloadFileDto.bucket DownloadFileDto.key].
        by rewrite Hvalid, Hobj, Hbody. }
  destruct (downloadFiles_reads Store_send sch'
              (map downloadOf data) st' streams) as [Hres _].
  - rewrite Hreads. unfold answers. by rewrite map_map.
  - unfold streams. apply Forall_forall. intros stream Hin.
    apply (list_elem_of_fmap_1 _ data stream) in Hin as (file & -> & _). done.
  - unfold onStore. cbn [invoke]. rewrite Hres. f_equal.
    unfold streams. rewrite map_map. apply map_ext. intros file. cbn.
    apply concat_toChunks.
Qed.

(** Every accepted write of a batch ends up fulfilled. *)
Lemma upload_accepted_slots sch data st i file :
  data !! i = Some file ->
  refused (UploadFileDto.bucket file) (UploadFileDto.key file) = None ->
  (settleAll sch (uploadPromises Store_send (this st) data) (remote st)).1 !! i
  = Some (Some (Fulfilled tt)).
Proof.
  intros Hi Hok.
  assert (Hlt : i < length (uploadPromises Store_send (this st) data)).
  { rewrite length_uploadPromises. by eapply lookup_lt_Some. }
  destruct (settleAll_total sch _ (remote st) i Hlt) as [o Ho]. rewrite Ho.
  pose (J := fun (slots : list (option (Settled unit))) (w : Store) =>
               forall o, slots !! i = Some (Some o) -> o = Fulfilled tt).
  assert (HJ : J (settleAll sch (uploadPromises Store_send (this st) data) (remote st)).1
                 (settleAll sch (uploadPromises Store_send (this st) data) (remote st)).2).
  { apply settleAll_invariant.
    - intros j p slots w Hp Hj HJ o'.
      destruct (decide (j = i)) as [->|Hne].
      + rewrite list_lookup_insert_eq by (by eapply lookup_lt_Some).
        intros [= <-]. unfold uploadPromises in Hp. rewrite lookup_map, Hi in Hp.
        injection Hp as <-. unfold putCommand. cbn [Store_send]. by rewrite Hok.
      + rewrite list_lookup_insert_ne by done. apply HJ.
    - intros o' Ho'. apply lookup_replicate in Ho' as [? _]. done. }
  by rewrite (HJ o Ho).
Qed.

(** While a batch of uploads is handled, every accepted request has its
    object in the store, provided that requests for the same object carry
    the same content and ask for the same content-type. *)
Lemma upload_stores_object sch data st :
  (forall i j fi fj,
      data !! i = Some fi -> data !! j = Some fj ->
      UploadFileDto.bucket fi = UploadFileDto.bucket fj ->
      UploadFileDto.key fi = UploadFileDto.key fj ->
      UploadFileDto.content fi = UploadFileDto.content fj
      /\ or_else (UploadFileDto.contentType fi) "application/octet-stream"
         = or_else (UploadFileDto.contentType fj) "application/octet-stream") ->
  forall i file,
    data !! i = Some file ->
    (settleAll sch (uploadPromises Store_send (this st) data) (remote st)).1 !! i
    = Some (Some (Fulfilled tt)) ->
    refused (UploadFileDto.bucket file) (UploadFileDto.key file) = None
    /\ objects (settleAll sch (uploadPromises Store_send (this st) data) (remote st)).2
         !! (UploadFileDto.bucket file, UploadFileDto.key file)
       = Some {| body := UploadFileDto.content file;
                 storedContentType :=
                   or_else (UploadFileDto.contentType file) "application/octet-stream" |}.
Proof.
  intros Hsame.
  pose (J := fun (slots : list (option (Settled unit))) (w : Store) =>
    forall i file,
      data !! i = Some file -> slots !! i = Some (Some (Fulfilled tt)) ->
      refused (UploadFileDto.bucket file) (UploadFileDto.key file) = None
      /\ objects w !! (UploadFileDto.bucket file, UploadFileDto.key file)
         = Some {| body := UploadFileDto.content file;
                   storedContentType :=
                     or_else (UploadFileDto.contentType file)
                       "application/octet-stream" |}).
  apply (settleAll_invariant J).
  - intros j p slots w Hp Hj HJ i file Hi.
    unfold uploadPromises in Hp. rewrite lookup_map in Hp.
    destruct (data !! j) as [fj|] eqn:Hfj; [|done]. injection Hp as <-.
    unfold putCommand. cbn [Store_send].
    destruct (refused (UploadFileDto.bucket fj) (UploadFileDto.key fj)) as [e|] eqn:Hr;
      cbn [fst snd set_objects objects].
    + destruct (decide (j = i)) as [->|Hne].
      * rewrite list_lookup_insert_eq by (by eapply lookup_lt_Some). done.
      * rewrite list_lookup_insert_ne by done. by apply HJ.
    + destruct (decide (j = i)) as [->|Hne].
      * intros _. assert (fj = file) as -> by congruence.
        split; [done|]. by rewrite lookup_insert_eq.
      * rewrite list_lookup_insert_ne by done. intros Hs.
        destruct (HJ i file Hi Hs) as [Hok Hobj]. split; [done|].
        destruct (decide ((UploadFileDto.bucket fj, UploadFileDto.key fj)
                          = (UploadFileDto.bucket file, UploadFileDto.key file)))
          as [Heq|Hkey].
        -- rewrite Heq, lookup_insert_eq. injection Heq as Hb Hk.
           destruct (Hsame j i fj file Hfj Hi Hb Hk) as [-> ->]. done.
        -- by rewrite lookup_insert_ne.
  - intros i file _ Hi. apply lookup_replicate in Hi as [? _]. done.
Qed.

Lemma set_objects_same (w : Store) : set_objects (objects w) w = w.
Proof. by destruct w. Qed.

(** Uploading a batch again, from the store that the batch left, changes
    nothing. *)
Lemma upload_again sch sch' data st :
  (forall i j fi fj,
      data !! i = Some fi -> data !! j = Some fj ->
      UploadFileDto.bucket fi = UploadFileDto.bucket fj ->
      UploadFileDto.key fi = UploadFileDto.key fj ->
      UploadFileDto.content fi = UploadFileDto.content fj
      /\ or_else (UploadFileDto.contentType fi) "application/octet-stream"
         = or_else (UploadFileDto.contentType fj) "application/octet-stream") ->
  remote (onStore (UploadFiles sch' data) (onStore (UploadFiles sch data) st).2).2
  = remote (onStore (UploadFiles sch data) st).2.
Proof.
  intros Hsame. rewrite (onStore_upload_remote sch'), onStore_this.
  set (w1 := remote (onStore (UploadFiles sch data) st).2).
  apply (settleAll_invariant (fun _ w => w = w1)); [|done].
  intros j p slots w Hp _ ->.
  unfold uploadPromises in Hp. rewrite lookup_map in Hp.
  destruct (data !! j) as [fj|] eqn:Hfj; [|done]. injection Hp as <-.
  unfold putCommand. cbn [Store_send].
  destruct (refused (UploadFileDto.bucket fj) (UploadFileDto.key fj)) as [e|] eqn:Hr;
    cbn [snd]; [done|].
  pose proof (upload_accepted_slots sch data st j fj Hfj Hr) as Hslot.
  destruct (upload_stores_object sch data st Hsame j fj Hfj Hslot) as [_ Hobj].
  rewrite <- onStore_upload_remote in Hobj. fold w1 in Hobj.
  rewrite (insert_id _ _ _ Hobj). apply set_objects_same.
Qed.

End OnStore.

(** C1, amended.  On the reference store: for every batch of upload
    requests whose writes all succeed and in which requests for the same
    container and key carry the same content, under every schedule of the
    uploads and of the downloads, a later downloadFiles on the same
    container/key pairs, run while the objects at these keys are as the
    upload left them (none deleted since), returns exactly the content
    fields of the upload requests, in their order. *)
Theorem upload_download_roundtrip sch sch' data (st st' : State (W := Store)) :
  (forall i j fi fj,
      data !! i = Some fi -> data !! j = Some fj ->
      UploadFileDto.bucket fi = UploadFileDto.bucket fj ->
      UploadFileDto.key fi = UploadFileDto.key fj ->
      UploadFileDto.content fi = UploadFileDto.content fj) ->
  (onStore (UploadFiles sch data) st).1 = Fulfilled tt ->
  (forall file,
      file ∈ data ->
      objects (remote st') !! (UploadFileDto.bucket file, UploadFileDto.key file)
      = objects (remote (onStore (UploadFiles sch data) st).2)
          !! (UploadFileDto.bucket file, UploadFileDto.key file)) ->
  (onStore (DownloadFiles sch' (map downloadOf data)) st').1
  = Fulfilled (map UploadFileDto.content data).
Proof. apply roundtrip. Qed.

(** C5, amended.  On the reference store: for every batch in which
    requests for the same container and key carry the same content and ask
    for the same content-type, uploading the batch a second time, under any
    schedules, leaves the store as the first upload left it; and a fulfilled
    upload leaves at the key of every request of the batch the content and
    the content-type of that request, whatever was stored there before. *)
Theorem upload_batch_idempotent_and_overwrites sch sch' data (st : State (W := Store)) :
  (forall i j fi fj,
      data !! i = Some fi -> data !! j = Some fj ->
      UploadFileDto.bucket fi = UploadFileDto.bucket fj ->
      UploadFileDto.key fi = UploadFileDto.key fj ->
      UploadFileDto.content fi = UploadFileDto.content fj
      /\ or_else (UploadFileDto.contentType fi) "application/octet-stream"
         = or_else (UploadFileDto.contentType fj) "application/octet-stream") ->
  remote (onStore (UploadFiles sch' data) (onStore (UploadFiles sch data) st).2).2
  = remote (onStore (UploadFiles sch data) st).2
  /\ ((onStore (UploadFiles sch data) st).1 = Fulfilled tt ->
      forall file,
        file ∈ data ->
        objects (remote (onStore (UploadFiles sch data) st).2)
          !! (UploadFileDto.bucket file, UploadFileDto.key file)
        = Some {| body := UploadFileDto.content file;
                  storedContentType :=
                    or_else (UploadFileDto.contentType file)
                      "application/octet-stream" |}).
Proof.
  intros Hsame. split; [by apply upload_again|].
  intros Hok file Hin. apply list_elem_of_lookup in Hin as [i Hi].
  pose proof (upload_fulfilled_slots sch data st i file Hok Hi) as Hslot.
  rewrite onStore_upload_remote.
  by destruct (upload_stores_object sch data st Hsame i file Hi Hslot) as [_ Hobj].
Qed.

(** ** The statements at work on sample runs *)

Lemma upload_download_roundtrip_witness :
  (onStore (UploadFiles reversed [hello; untyped]) freshState).1 = Fulfilled tt
  /\ (onStore (DownloadFiles inOrder (map downloadOf [hello; untyped])) busy).1
     = Fulfilled [Buffer_from "Hello"; Buffer_from "data"].
Proof.
  split; [vm_compute; reflexivity|].
  apply (upload_download_roundtrip reversed inOrder [hello; untyped] freshState busy).
  - intros [|[|i]] [|[|j]] fi fj; cbn; intros [= <-] [= <-]; done.
  - vm_compute; reflexivity.
  - intros file Hin.
    apply elem_of_cons in Hin as [->|Hin]; [vm_compute; reflexivity|].
    apply elem_of_cons in Hin as [->|Hin]; [vm_compute; reflexivity|].
    by apply elem_of_nil in Hin.
Defined.

(** Two writes to one object: both succeed, and both downloads return the
    bytes of the write that the store handled last. *)
Lemma duplicate_key_breaks_roundtrip :
  (onStore (UploadFiles inOrder [first; second]) freshState).1 = Fulfilled tt
  /\ (onStore (DownloadFiles inOrder (map downloadOf [first; second]))
        (onStore (UploadFiles inOrder [first; second]) freshState).2).1
     = Fulfilled [Buffer_from "B"; Buffer_from "B"]
  /\ (onStore (DownloadFiles inOrder (map downloadOf [first; second]))
        (onStore (UploadFiles inOrder [first; second]) freshState).2).1
     <> Fulfilled (map UploadFileDto.content [first; second])
  /\ (onStore (DownloadFiles inOrder (map downloadOf [first; second]))
        (onStore (UploadFiles reversed [first; second]) freshState).2).1
     <> Fulfilled (map UploadFileDto.content [first; second]).
Proof. vm_compute. repeat split; discriminate. Qed.

Lemma downloadFiles_buffers_witness :
  (downloadFiles Store_send reversed (map downloadOf [hello; untyped]) stocked).1
  = Fulfilled [Buffer_from "Hello"; Buffer_from "data"]
  /\ length [Buffer_from "Hello"; Buffer_from "data"] = 2.
Proof.
  apply (downloadFiles_buffers Store_send reversed (map downloadOf [hello; untyped])
           stocked stockedStreams).
  - vm_compute; reflexivity.
  - repeat constructor.
Defined.

Lemma first_rejection_propagated_witness :
  (exists e,
      firstRejection Store_send Store_generateSignedUrl
        (UploadFiles reversed [noBucket; noKey]) freshState = Some e
      /\ e ∈ remoteRejections Store_send Store_generateSignedUrl
               (UploadFiles reversed [noBucket; noKey]) freshState
      /\ (onStore (UploadFiles reversed [noBucket; noKey]) freshState).1 = Rejected e
      /\ notices Store_send Store_generateSignedUrl
           (UploadFiles reversed [noBucket; noKey]) freshState
         = [LogLine "S3StorageService" "Uploading 2 file(s) to S3...";
            ErrorLine "S3StorageService" "Failed to upload files to S3" (stackTrace e)])
  /\ (exists e,
         firstRejection Store_send Store_generateSignedUrl
           (GetSignedUrl (GetSignedUrlDto.make "b" "f.txt" None)) regionless = Some e
         /\ e ∈ remoteRejections Store_send Store_generateSignedUrl
                  (GetSignedUrl (GetSignedUrlDto.make "b" "f.txt" None)) regionless
         /\ (onStore (GetSignedUrl (GetSignedUrlDto.make "b" "f.txt" None)) regionless).1
            = Rejected e
         /\ notices Store_send Store_generateSignedUrl
              (GetSignedUrl (GetSignedUrlDto.make "b" "f.txt" None)) regionless
            = [LogLine "S3StorageService" "Generating signed URL for s3://b/f.txt...";
               ErrorLine "S3StorageService" "Failed to generate signed URL"
                 (stackTrace e)]).
Proof.
  split.
  - apply (first_rejection_propagated Store_send Store_generateSignedUrl
             (UploadFiles reversed [noBucket; noKey]) freshState).
    vm_compute. discriminate.
  - apply (first_rejection_propagated Store_send Store_generateSignedUrl
             (GetSignedUrl (GetSignedUrlDto.make "b" "f.txt" None)) regionless).
    vm_compute. discriminate.
Defined.

(** Two refused writes in one batch: the second one rejects with
    [InvalidKey], yet the method rejects with the reason of the first. *)
Lemma later_rejection_not_surfaced :
  InvalidKey ∈ remoteRejections Store_send Store_generateSignedUrl
                 (UploadFiles inOrder [noBucket; noKey]) freshState
  /\ (onStore (UploadFiles inOrder [noBucket; noKey]) freshState).1
     = Rejected InvalidBucketName
  /\ (onStore (UploadFiles inOrder [noBucket; noKey]) freshState).1
     <> Rejected InvalidKey.
Proof.
  split; [|split].
  - vm_compute. apply list_elem_of_further, list_elem_of_here.
  - vm_compute; reflexivity.
  - vm_compute. discriminate.
Qed.

Lemma contentType_sent_witness :
  issued (uploadFiles Store_send inOrder [hello; untyped] freshState).2 !! 1
  = Some (Sent (PutObjectCommand "b" "raw.bin" (Buffer_from "data")
                  "application/octet-stream"))
  /\ issued (uploadFiles Store_send inOrder [hello; untyped] freshState).2 !! 0
     = Some (Sent (PutObjectCommand "b" "f.txt" (Buffer_from "Hello") "text/plain")).
Proof.
  split.
  - apply (proj1 (contentType_sent Store_send inOrder [hello; untyped] freshState
                    1 untyped eq_refl)).
    reflexivity.
  - apply (proj2 (contentType_sent Store_send inOrder [hello; untyped] freshState
                    0 hello eq_refl) "text/plain").
    + reflexivity.
    + discriminate.
Defined.

(** A request that supplies the empty string as its content-type: the
    command sent asks for application/octet-stream, not for the supplied
    value. *)
Lemma empty_contentType_not_sent :
  UploadFileDto.contentType emptyTyped = Some EmptyString
  /\ issued (uploadFiles Store_send inOrder [emptyTyped] freshState).2 !! 0
     = Some (Sent (PutObjectCommand "b" "blank.bin" (Buffer_from "data")
                     "application/octet-stream"))
  /\ issued (uploadFiles Store_send inOrder [emptyTyped] freshState).2 !! 0
     <> Some (Sent (PutObjectCommand "b" "blank.bin" (Buffer_from "data") EmptyString)).
Proof. vm_compute. repeat split; discriminate. Qed.

Lemma upload_batch_idempotent_and_overwrites_witness :
  remote (onStore (UploadFiles inOrder [first; hello; first])
            (onStore (UploadFiles reversed [first; hello; first])
               (onStore (UploadFiles inOrder [second]) freshState).2).2).2
  = remote (onStore (UploadFiles reversed [first; hello; first])
              (onStore (UploadFiles inOrder [second]) freshState).2).2
  /\ (forall file,
        file ∈ [first; hello; first] ->
        objects (remote (onStore (UploadFiles reversed [first; hello; first])
                           (onStore (UploadFiles inOrder [second]) freshState).2).2)
          !! (UploadFileDto.bucket file, UploadFileDto.key file)
        = Some {| body := UploadFileDto.content file;
                  storedContentType :=
                    or_else (UploadFileDto.contentType file)
                      "application/octet-stream" |}).
Proof.
  destruct (upload_batch_idempotent_and_overwrites reversed inOrder [first; hello; first]
              (onStore (UploadFiles inOrder [second]) freshState).2) as [Hidem Hover].
  - intros [|[|[|i]]] [|[|[|j]]] fi fj; cbn; intros [= <-] [= <-] Hb Hk;
      try discriminate; by split.
  - split; [exact Hidem|]. apply Hover. vm_compute; reflexivity.
Defined.

(** A batch with two different writes to one object: the upload is
    fulfilled, the store holds the bytes of the write handled last and not
    those of the first request, and uploading the same batch again under
    another schedule changes the store. *)
Lemma duplicate_batch_not_idempotent :
  (onStore (UploadFiles inOrder [first; second]) freshState).1 = Fulfilled tt
  /\ objects (remote (onStore (UploadFiles inOrder [first; second]) freshState).2)
       !! ("b", "k")
     <> Some {| body := UploadFileDto.content first;
                storedContentType := "application/octet-stream" |}
  /\ remote (onStore (UploadFiles reversed [first; second])
               (onStore (UploadFiles inOrder [first; second]) freshState).2).2
     <> remote (onStore (UploadFiles inOrder [first; second]) freshState).2.
Proof.
  split; [vm_compute; reflexivity|]. split.
  - vm_compute. discriminate.
  - intros H. apply (f_equal (fun w => objects w !! ("b", "k"))) in H.
    vm_compute in H. discriminate.
Qed.

Lemma listFiles_no_contents_witness :
  (listFiles Store_send (ListFilesDto.make "b" (Some "zzz")) stocked).1 = Fulfilled [].
Proof.
  apply (listFiles_no_contents Store_send (ListFilesDto.make "b" (Some "zzz")) stocked
           {| Contents := None |}).
  - vm_compute; reflexivity.
  - left; reflexivity.
Defined.

Lemma getSignedUrl_default_and_passthrough_witness :
  issued (getSignedUrl Store_generateSignedUrl
            (GetSignedUrlDto.make "b" "f.txt" None) freshState).2
  = [Presigned (s3 (this freshState)) (GetObjectCommand "b" "f.txt") 3600]
  /\ (getSignedUrl Store_generateSignedUrl
        (GetSignedUrlDto.make "b" "f.txt" None) freshState).1
     = Fulfilled "https://b.s3.eu-west-1.amazonaws.com/f.txt?X-Amz-Expires=3600".
Proof.
  destruct (getSignedUrl_default_and_passthrough Store_generateSignedUrl
              (GetSignedUrlDto.make "b" "f.txt" None) freshState) as [Hdefault Hsame].
  split.
  - apply Hdefault. reflexivity.
  - apply Hsame. vm_compute; reflexivity.
Defined.

(** An upload that succeeds logs its start notice and then its completion
    notice: notices of two classes. *)
Lemma upload_emits_two_classes :
  map classOf (notices Store_send Store_generateSignedUrl
                 (UploadFiles inOrder [hello]) freshState)
  = [Some StartNotice; Some CompletionNotice]
  /\ ~ (exists class,
          Forall (fun entry => classOf entry = Some class)
            (notices Store_send Store_generateSignedUrl
               (UploadFiles inOrder [hello]) freshState)).
Proof.
  split; [vm_compute; reflexivity|].
  intros [class Hall].
  assert (Hclasses : Forall (fun c => c = Some class)
                       (map classOf (notices Store_send Store_generateSignedUrl
                                       (UploadFiles inOrder [hello]) freshState))).
  { revert Hall. generalize (notices Store_send Store_generateSignedUrl
                               (UploadFiles inOrder [hello]) freshState).
    intros l Hall. induction Hall; constructor; done. }
  vm_compute in Hclasses.
  inversion Hclasses as [|? ? H1 Hrest]; subst.
  inversion Hrest as [|? ? H2 _]; subst. congruence.
Qed.

Lemma empty_contentType_defaulted_witness :
  issued (uploadFiles Store_send inOrder [hello; emptyTyped] freshState).2 !! 1
  = Some (Sent (PutObjectCommand "b" "blank.bin" (Buffer_from "data")
                  "application/octet-stream")).
Proof.
  apply (empty_contentType_defaulted Store_send inOrder [hello; emptyTyped] freshState
           1 emptyTyped); reflexivity.
Defined.

(** * Further properties of the service *)

(** ** Outcomes of a batch *)

Section Outcomes.

Context {W A : Type}.
Implicit Types (promises : list (Promise (W := W) A)) (slots : list (option (Settled A))).

Lemma firstRejected_reasons order slots e :
  firstRejected order slots = Some e -> e ∈ reasons slots.
Proof.
  intros H. apply elem_of_reasons.
  apply firstRejected_Some in H as (i & _ & Hi). by exists i.
Qed.

Lemma firstRejected_nil order : firstRejected order ([] : list (option (Settled A))) = None.
Proof. induction order as [|i order IH]; [done|]. cbn. by rewrite lookup_nil. Qed.

(** Slots that are all fulfilled are the image of their values. *)
Lemma fulfilledValues_slots slots :
  (forall i, i < length slots -> exists v, slots !! i = Some (Some (Fulfilled v))) ->
  slots = map (fun v => Some (Fulfilled v)) (fulfilledValues slots).
Proof.
  induction slots as [|slot slots IH]; intros Hall; [done|].
  destruct (Hall 0) as [v Hv]; [cbn; lia|]. injection Hv as ->.
  unfold fulfilledValues. cbn. f_equal. apply IH.
  intros i Hi. apply (Hall (S i)). cbn. lia.
Qed.

(** Without a rejected promise, every promise of the batch is fulfilled. *)
Lemma settled_fulfilled sch promises w :
  firstRejected (settled sch ++ seq 0 (length promises)) (settleAll sch promises w).1
  = None ->
  forall i, i < length (settleAll sch promises w).1 ->
    exists v, (settleAll sch promises w).1 !! i = Some (Some (Fulfilled v)).
Proof.
  intros Hnone i Hi. rewrite settleAll_length in Hi.
  destruct (settleAll_total sch promises w i Hi) as [[v|e] Ho]; [by exists v|].
  exfalso. eapply firstRejected_None; [exact Hnone| |exact Ho].
  apply elem_of_app. right. apply elem_of_seq. lia.
Qed.

(** A fulfilled [Promise.all] yields, at each index, the value that the
    promise at this index was fulfilled with. *)
Lemma Promise_all_fulfilled sch promises w values :
  (Promise_all sch promises w).1 = Fulfilled values ->
  (settleAll sch promises w).1 = map (fun v => Some (Fulfilled v)) values.
Proof.
  rewrite Promise_all_fst.
  destruct (firstRejected _ _) as [e|] eqn:Hfirst; [done|].
  intros [= <-]. apply fulfilledValues_slots. by apply settled_fulfilled.
Qed.

Lemma Promise_all_no_rejection sch promises w :
  reasons (settleAll sch promises w).1 = [] ->
  exists values, (Promise_all sch promises w).1 = Fulfilled values.
Proof.
  intros Hnone. rewrite Promise_all_fst.
  destruct (firstRejected _ _) as [e|] eqn:Hfirst; [|by eexists].
  apply firstRejected_reasons in Hfirst. rewrite Hnone in Hfirst.
  by apply elem_of_nil in Hfirst.
Qed.

(** An empty batch is settled at once and leaves the remote side alone. *)
Lemma Promise_all_nil sch w :
  Promise_all sch ([] : list (Promise (W := W) A)) w = (Fulfilled [], w).
Proof.
  assert (Hs : settleAll sch ([] : list (Promise (W := W) A)) w = ([], w)).
  { rewrite (surjective_pairing (settleAll sch [] w)).
    pose (J := fun (slots : list (option (Settled A))) (w' : W) => slots = [] /\ w' = w).
    destruct (settleAll_invariant J sch [] w) as [-> ->]; [|done|done].
    intros i p slots w' Hp. by rewrite lookup_nil in Hp. }
  unfold Promise_all. rewrite Hs. cbn [length seq]. by rewrite firstRejected_nil.
Qed.

End Outcomes.

Section MoreGateway.

Context {W : Type}.
Variable send : S3Client -> forall c : Command, W -> Settled (OutputOf c) * W.
Variable generateSignedUrl : S3Client -> Command -> Z -> W -> Settled string * W.

Local Abbreviation run := (invoke send generateSignedUrl).

(** X2.  A method that rejects with a value that is not an [Error] logs
    the empty string in the place of the stack, and rethrows the value as
    it is. *)
Theorem non_error_logged_without_stack {R} (call : Call R) (st : State (W := W)) value :
  (run call st).1 = Rejected (OtherValue value) ->
  notices send generateSignedUrl call st =
  [LogLine (context (logger (this st))) (startNotice call);
   ErrorLine (context (logger (this st))) (failureNotice call) (Some EmptyString)].
Proof. intros H. rewrite notices_run. by rewrite H. Qed.

(** X3.  A service built by the constructor logs every line under the
    name of its class. *)
Theorem notices_carry_class_name {R} (call : Call R) (st : State (W := W)) env :
  this st = constructor env ->
  Forall (fun entry => contextOf entry = "S3StorageService")
    (notices send generateSignedUrl call st).
Proof.
  intros Hthis. rewrite notices_run, Hthis. cbn [constructor logger context].
  constructor; [done|].
  destruct (run call st).1 as [result|e]; cbn [closing].
  - destruct (completionNotice call result); by repeat constructor.
  - by repeat constructor.
Qed.

End MoreGateway.

(** X4.  Against a client and a presigner that reject every call with the
    same [error], every method call that makes at least one remote call
    rejects with [error] under every schedule, logs its start notice and one
    error line carrying the stack of [error], and the remote side stays as
    it was. *)
Theorem rejecting_client_rejects {W R} (error : Thrown) (call : Call R)
    (st : State (W := W)) :
  remoteCalls call <> 0 ->
  (invoke (mockRejectedValue error) (mockRejectedUrl error) call st).1 = Rejected error
  /\ notices (mockRejectedValue error) (mockRejectedUrl error) call st =
     [LogLine (context (logger (this st))) (startNotice call);
      ErrorLine (context (logger (this st))) (failureNotice call) (stackTrace error)]
  /\ remote (invoke (mockRejectedValue error) (mockRejectedUrl error) call st).2
     = remote st.
Proof.
  intros Hcalls.
  assert (Hbatch : forall (A : Type) sch (promises : list (Promise (W := W) A)),
             promises <> [] ->
             Forall (fun p => forall w, p w = (Rejected error, w)) promises ->
             Promise_all sch promises (remote st) = (Rejected error, remote st)).
  { intros A sch promises Hne Hall.
    assert (Hs : settleAll sch promises (remote st)
                 = (map Some (map (fun _ => Rejected error) promises), remote st)).
    { apply settleAll_readonly; [by rewrite length_map|].
      intros i p Hp. exists (Rejected error). split.
      - rewrite lookup_map. unfold Promise in *. by rewrite Hp.
      - by apply (proj1 (Forall_lookup _ _) Hall i p). }
    rewrite (surjective_pairing (Promise_all sch promises (remote st))).
    rewrite Promise_all_fst, Promise_all_snd, Hs. cbn [fst snd]. f_equal.
    destruct (firstRejected _ _) as [e|] eqn:Hfirst.
    - apply firstRejected_Some in Hfirst as (i & _ & Hi).
      rewrite !lookup_map in Hi. destruct (promises !! i); [|done].
      cbn in Hi. congruence.
    - exfalso. destruct promises as [|p promises]; [done|].
      eapply (firstRejected_None _ _ 0 error Hfirst); [|done].
      apply elem_of_app. right. apply elem_of_seq. cbn. lia. }
  assert (Hawait : awaited (mockRejectedValue error) (mockRejectedUrl error) call st
                   = (Rejected error, remote st)).
  { destruct call as [sch data|sch data|sch data|data|data]; cbn [awaited remoteCalls] in *.
    - rewrite Hbatch; [done| |].
      + destruct data; [done|]. done.
      + unfold uploadPromises. apply Forall_forall. intros p Hp.
        apply (list_elem_of_fmap_1 _ data p) in Hp as (file & -> & _). done.
    - rewrite Hbatch; [done| |].
      + destruct data; [done|]. done.
      + unfold downloadPromises, readPromises. rewrite map_map.
        apply Forall_forall. intros p Hp.
        apply (list_elem_of_fmap_1 _ data p) in Hp as (file & -> & _). done.
    - rewrite Hbatch; [done| |].
      + destruct data; [done|]. done.
      + unfold deletePromises. apply Forall_forall. intros p Hp.
        apply (list_elem_of_fmap_1 _ data p) in Hp as (file & -> & _). done.
    - done.
    - done. }
  rewrite notices_run, invoke_run. cbn [fst snd remote]. by rewrite Hawait.
Qed.

(** ** Requests, results and edge cases of each method *)

Section MoreRequests.

Context {W : Type}.
Variable send : S3Client -> forall c : Command, W -> Settled (OutputOf c) * W.

Local Abbreviation run :=
  (invoke send (fun _ _ _ w => (Rejected (OtherValue EmptyString), w))).

(** X6.  An empty batch never reaches the client: under every behaviour of
    the SDK, [uploadFiles], [deleteFiles] and [downloadFiles] on the empty
    sequence are fulfilled ([downloadFiles] with no buffer), issue no
    request, leave the remote side as it was, and log their notices for
    zero files. *)
Theorem empty_batch_succeeds sch (st : State (W := W)) :
  let ctx := context (logger (this st)) in
  uploadFiles send sch [] st =
    (Fulfilled tt,
     {| this := this st; remote := remote st;
        logged := logged st ++ [LogLine ctx "Uploading 0 file(s) to S3...";
                                LogLine ctx "Upload completed successfully."];
        issued := issued st |})
  /\ deleteFiles send sch [] st =
     (Fulfilled tt,
      {| this := this st; remote := remote st;
         logged := logged st ++ [LogLine ctx "Deleting 0 file(s) from S3...";
                                 LogLine ctx "Deletion completed successfully."];
         issued := issued st |})
  /\ downloadFiles send sch [] st =
     (Fulfilled [],
      {| this := this st; remote := remote st;
         logged := logged st ++ [LogLine ctx "Downloading 0 file(s) from S3..."];
         issued := issued st |}).
Proof.
  intros ctx. subst ctx. repeat split.
  - change (uploadFiles send sch [] st) with (run (UploadFiles sch []) st).
    rewrite invoke_run. cbn [awaited uploadPromises map requestsOf].
    rewrite Promise_all_nil. cbn. by rewrite app_nil_r.
  - change (deleteFiles send sch [] st) with (run (DeleteFiles sch []) st).
    rewrite invoke_run. cbn [awaited deletePromises map requestsOf].
    rewrite Promise_all_nil. cbn. by rewrite app_nil_r.
  - change (downloadFiles send sch [] st) with (run (DownloadFiles sch []) st).
    rewrite invoke_run. cbn [awaited downloadPromises readPromises map requestsOf].
    rewrite Promise_all_nil. cbn. by rewrite app_nil_r.
Qed.

(** X7.  [listFiles] returns the keys of the listed objects in the order
    of the response, and logs their number after its start notice. *)
Theorem listFiles_keys data (st : State (W := W)) response contents :
  (send (s3 (this st))
     (ListObjectsV2Command (ListFilesDto.bucket data)
        (or_else (ListFilesDto.prefix data) EmptyString))
     (remote st)).1 = Fulfilled response ->
  Contents response = Some contents ->
  (listFiles send data st).1 = Fulfilled (map Key contents)
  /\ exists start,
      logged (listFiles send data st).2 =
      (logged st
       ++ [LogLine (context (logger (this st))) start;
           LogLine (context (logger (this st)))
             ("Found " +:+ pretty (length contents) +:+ " file(s).")])%list.
Proof.
  intros Hsend Hcontents.
  change (listFiles send data st) with (run (ListFiles data) st).
  rewrite invoke_run. cbn [fst snd logged awaited]. unfold listCommand.
  rewrite Hsend. cbn [Settled_bind]. rewrite Hcontents. split; [done|].
  eexists. cbn [closing completionNotice]. by rewrite length_map.
Qed.

(** X8.  [listFiles] sends exactly one list command, for the bucket of the
    request; its prefix is the empty string when the request has no prefix
    or an empty one, and the prefix of the request otherwise. *)
Theorem listFiles_prefix_sent data (st : State (W := W)) :
  (ListFilesDto.prefix data = None \/ ListFilesDto.prefix data = Some EmptyString ->
   issued (listFiles send data st).2 =
   (issued st ++ [Sent (ListObjectsV2Command (ListFilesDto.bucket data) EmptyString)])%list)
  /\ (forall prefix,
        ListFilesDto.prefix data = Some prefix -> prefix <> EmptyString ->
        issued (listFiles send data st).2 =
        (issued st ++ [Sent (ListObjectsV2Command (ListFilesDto.bucket data) prefix)])%list).
Proof.
  change (listFiles send data st) with (run (ListFiles data) st).
  rewrite invoke_run. cbn [snd issued requestsOf]. unfold listCommand. split.
  - by intros [-> | ->].
  - intros prefix -> Hne. by destruct prefix.
Qed.

(** X9.  A stream that fails gives no buffer, whatever it delivered before:
    when the object of a single download request is answered with a stream
    that ends with a failure, [downloadFiles] rejects with that failure and
    logs one error line carrying its stack. *)
Theorem downloadFiles_stream_failure sch file (st : State (W := W)) stream e :
  (send (s3 (this st))
     (GetObjectCommand (DownloadFileDto.bucket file) (DownloadFileDto.key file))
     (remote st)).1 = Fulfilled {| Body := stream |} ->
  failure stream = Some e ->
  (downloadFiles send sch [file] st).1 = Rejected e
  /\ logged (downloadFiles send sch [file] st).2 =
     (logged st
      ++ [LogLine (context (logger (this st))) "Downloading 1 file(s) from S3...";
          ErrorLine (context (logger (this st))) "Failed to download files from S3"
            (stackTrace e)])%list.
Proof.
  intros Hsend Hfail.
  assert (Hawait : (awaited send (fun _ _ _ w => (Rejected (OtherValue EmptyString), w))
                      (DownloadFiles sch [file]) st).1 = Rejected e).
  { cbn [awaited downloadPromises readPromises map].
    rewrite Promise_all_singleton. unfold Promise_then, getCommand.
    destruct (send _ _ _) as [o w']. cbn in Hsend. subst o. cbn.
    unfold readAll, for_await_push. cbn. by rewrite Hfail. }
  change (downloadFiles send sch [file] st) with (run (DownloadFiles sch [file]) st).
  rewrite invoke_run. cbn [fst snd logged]. by rewrite Hawait.
Qed.

(** X10.  Whenever [downloadFiles] is fulfilled, it returns one buffer per
    request, and the buffer at each index is the one read from the answer
    to the request at that index, whatever the order in which the answers
    arrived. *)
Theorem downloadFiles_one_buffer_per_request sch data (st : State (W := W)) buffers :
  (downloadFiles send sch data st).1 = Fulfilled buffers ->
  length buffers = length data
  /\ (settleAll sch (downloadPromises send (this st) data) (remote st)).1
     = map (fun buffer => Some (Fulfilled buffer)) buffers.
Proof.
  change (downloadFiles send sch data st) with (run (DownloadFiles sch data) st).
  rewrite invoke_run. cbn [fst awaited]. intros Hall.
  apply Promise_all_fulfilled in Hall. split; [|done].
  rewrite <- (length_map (fun buffer => Some (Fulfilled buffer)) buffers), <- Hall.
  by rewrite settleAll_length, length_downloadPromises.
Qed.

End MoreRequests.

(** X11.  The test double of the spec file, for every text: against a
    client that resolves get-object with the stream
    [ReadableFromString(text)], a single download returns one buffer, the
    bytes of [text]. *)
Theorem download_of_string_stream {W} sch file text (st : State (W := W)) :
  (downloadFiles (mockResolvedValue (withBody (ReadableFromString text))) sch [file] st).1
  = Fulfilled [Buffer_from text].
Proof.
  change (downloadFiles ?s sch [file] st)
    with (invoke s (fun _ _ _ w => (Rejected (OtherValue EmptyString), w))
            (DownloadFiles sch [file]) st).
  rewrite invoke_run. cbn [fst awaited downloadPromises readPromises map].
  rewrite Promise_all_singleton. cbn.
  unfold readAll, for_await_push, ReadableFromString. cbn.
  destruct text as [|c text]; cbn; [done|].
  unfold Buffer_concat. cbn. by rewrite app_nil_r.
Qed.

Section MoreSigning.

Context {W : Type}.
Variable generateSignedUrl : S3Client -> Command -> Z -> W -> Settled string * W.

(** X12.  [getSignedUrl] never calls [send]: it makes one request to the
    presigner, with the client of the service and a get-object command for
    the bucket and key of the request; and an expiry that the request
    supplies is passed on as it is, zero included. *)
Theorem getSignedUrl_expiry_passed data (st : State (W := W)) seconds :
  GetSignedUrlDto.expiresIn data = Some seconds ->
  issued (getSignedUrl generateSignedUrl data st).2 =
  (issued st
   ++ [Presigned (s3 (this st))
         (GetObjectCommand (GetSignedUrlDto.bucket data) (GetSignedUrlDto.key data))
         seconds])%list.
Proof.
  intros Hexp.
  change (getSignedUrl generateSignedUrl data st)
    with (invoke (fun _ c w => (Rejected (OtherValue EmptyString), w))
            generateSignedUrl (GetSignedUrl data) st).
  rewrite invoke_run. cbn [snd issued requestsOf]. unfold signedCommand.
  by rewrite Hexp.
Qed.

End MoreSigning.

(** ** The methods composed, against the reference store *)

Lemma matchingKeys_elem Bucket Prefix (w : Store) k :
  k ∈ matchingKeys Bucket Prefix w
  <-> is_Some (objects w !! (Bucket, k)) /\ startsWith Prefix k = true.
Proof.
  unfold matchingKeys. rewrite list_elem_of_omap. split.
  - intros ([[b k'] obj] & Hin & Hf). apply elem_of_map_to_list in Hin.
    destruct (decide (b = Bucket)) as [->|]; [|done].
    destruct (startsWith Prefix k') eqn:Hp; [|done]. injection Hf as ->. eauto.
  - intros [[obj Hobj] Hp]. exists (Bucket, k, obj). split.
    + by apply elem_of_map_to_list.
    + rewrite decide_True by done. by rewrite Hp.
Qed.

Lemma matchingKeys_NoDup Bucket Prefix (w : Store) : NoDup (matchingKeys Bucket Prefix w).
Proof.
  unfold matchingKeys.
  pose proof (NoDup_fst_map_to_list (objects w)) as Hnd.
  induction (map_to_list (objects w)) as [|[[b k] obj] l IH]; [constructor|].
  cbn in Hnd. apply NoDup_cons in Hnd as [Hnotin Hnd]. cbn [omap list_omap].
  destruct (decide (b = Bucket)) as [->|]; [|by apply IH].
  destruct (startsWith Prefix k); [|by apply IH].
  apply NoDup_cons. split; [|by apply IH].
  intros Hin. apply list_elem_of_omap in Hin as ([[b' k'] obj'] & Hin & Hf).
  destruct (decide (b' = Bucket)) as [->|]; [|done].
  destruct (startsWith Prefix k'); [|done]. injection Hf as ->.
  apply Hnotin. apply list_elem_of_fmap. by exists (Bucket, k, obj').
Qed.

Lemma startsWith_empty s : startsWith EmptyString s = true.
Proof. done. Qed.

Section Composition.

Implicit Types (st : State (W := Store)).

(** On a named bucket, the store answers a listing with the matching keys,
    which [listFiles] returns as they are. *)
Lemma listFiles_onStore data st :
  ListFilesDto.bucket data <> EmptyString ->
  (onStore (ListFiles data) st).1
  = Fulfilled (matchingKeys (ListFilesDto.bucket data)
                 (or_else (ListFilesDto.prefix data) EmptyString) (remote st)).
Proof.
  intros Hbucket.
  unfold onStore. rewrite invoke_run. cbn [fst awaited]. unfold listCommand.
  cbn [Store_send].
  destruct (ListFilesDto.bucket data) as [|c b] eqn:Hb; [done|].
  destruct (matchingKeys _ _ _) as [|k keys] eqn:Hkeys; cbn; [done|].
  f_equal. f_equal. rewrite map_map. cbn. apply map_id.
Qed.

(** X13.  On the reference store, [listFiles] on a named bucket returns,
    without repetition, exactly the keys of the objects of that bucket that
    start with the prefix of the request; without a prefix, or with the
    empty one, these are all the keys of the bucket. *)
Theorem listFiles_lists_bucket data st :
  ListFilesDto.bucket data <> EmptyString ->
  exists keys,
    (onStore (ListFiles data) st).1 = Fulfilled keys
    /\ NoDup keys
    /\ (forall k,
          k ∈ keys <->
          is_Some (objects (remote st) !! (ListFilesDto.bucket data, k))
          /\ startsWith (or_else (ListFilesDto.prefix data) EmptyString) k = true)
    /\ (ListFilesDto.prefix data = None \/ ListFilesDto.prefix data = Some EmptyString ->
        forall k,
          k ∈ keys <-> is_Some (objects (remote st) !! (ListFilesDto.bucket data, k))).
Proof.
  intros Hbucket.
  exists (matchingKeys (ListFilesDto.bucket data)
            (or_else (ListFilesDto.prefix data) EmptyString) (remote st)).
  split; [|split; [apply matchingKeys_NoDup|split]].
  - by apply listFiles_onStore.
  - intros k. apply matchingKeys_elem.
  - intros Hprefix k. rewrite matchingKeys_elem.
    destruct Hprefix as [-> | ->]; cbn [or_else]; rewrite startsWith_empty; tauto.
Qed.

(** X14.  On the reference store, reading never writes: [downloadFiles],
    [listFiles] and [getSignedUrl] leave the store exactly as it was,
    whether they are fulfilled or rejected. *)
Theorem reads_leave_store_unchanged st :
  (forall sch data, remote (onStore (DownloadFiles sch data) st).2 = remote st)
  /\ (forall data, remote (onStore (ListFiles data) st).2 = remote st)
  /\ (forall data, remote (onStore (GetSignedUrl data) st).2 = remote st).
Proof.
  split; [|split].
  - intros sch data. unfold onStore. rewrite invoke_run. cbn [snd remote awaited].
    rewrite Promise_all_snd.
    apply (settleAll_invariant (fun _ w => w = remote st)); [|done].
    intros i p slots w Hp _ ->.
    unfold downloadPromises, readPromises in Hp. rewrite !lookup_map in Hp.
    destruct (data !! i) as [file|]; [|done]. injection Hp as <-.
    unfold Promise_then, getCommand. cbn [Store_send].
    destruct (refused _ _); [done|].
    by destruct (objects (remote st) !! _).
  - intros data. unfold onStore. rewrite invoke_run. cbn [snd remote awaited].
    unfold listCommand. cbn [Store_send].
    destruct (ListFilesDto.bucket data); [done|].
    by destruct (matchingKeys _ _ _).
  - intros data. unfold onStore. rewrite invoke_run. cbn [snd remote awaited].
    unfold signedCommand, Store_generateSignedUrl.
    destruct (region (s3 (this st))); [|done].
    by destruct (refused _ _).
Qed.

(** X15.  On the reference store, a batch of uploads touches the objects
    of its requests only: every object at a container/key pair that no
    request of the batch addresses is after the batch what it was before,
    whatever the schedule and the outcome. *)
Theorem upload_leaves_other_objects sch data st Bucket Key :
  (forall file, file ∈ data ->
     (UploadFileDto.bucket file, UploadFileDto.key file) <> (Bucket, Key)) ->
  objects (remote (onStore (UploadFiles sch data) st).2) !! (Bucket, Key)
  = objects (remote st) !! (Bucket, Key).
Proof.
  intros Hother. rewrite onStore_upload_remote.
  apply (settleAll_invariant
           (fun _ w => objects w !! (Bucket, Key) = objects (remote st) !! (Bucket, Key)));
    [|done].
  intros i p slots w Hp _ Hw.
  unfold uploadPromises in Hp. rewrite lookup_map in Hp.
  destruct (data !! i) as [file|] eqn:Hi; [|done]. injection Hp as <-.
  unfold putCommand. cbn [Store_send].
  destruct (refused _ _); cbn [snd set_objects objects]; [done|].
  rewrite lookup_insert_ne; [done|].
  apply Hother. apply list_elem_of_lookup. by exists i.
Qed.

(** X16.  On the reference store, a batch is not rolled back: when
    requests for the same object carry the same content, the content of
    every request that the store accepts is at its key after the batch,
    also when another request of the batch made [uploadFiles] reject. *)
Theorem accepted_writes_persist sch data st i file :
  (forall i j fi fj,
      data !! i = Some fi -> data !! j = Some fj ->
      UploadFileDto.bucket fi = UploadFileDto.bucket fj ->
      UploadFileDto.key fi = UploadFileDto.key fj ->
      UploadFileDto.content fi = UploadFileDto.content fj) ->
  data !! i = Some file ->
  refused (UploadFileDto.bucket file) (UploadFileDto.key file) = None ->
  exists obj,
    objects (remote (onStore (UploadFiles sch data) st).2)
      !! (UploadFileDto.bucket file, UploadFileDto.key file) = Some obj
    /\ body obj = UploadFileDto.content file.
Proof.
  intros Hsame Hi Hok. rewrite onStore_upload_remote.
  pose proof (upload_accepted_slots sch data st i file Hi Hok) as Hslot.
  by destruct (upload_stores sch data st Hsame i file Hi Hslot) as [_ Hobj].
Qed.

(** While a batch of deletions is handled, the object of every accepted
    request is gone. *)
Lemma delete_removes sch data st i file :
  data !! i = Some file ->
  (settleAll sch (deletePromises Store_send (this st) data) (remote st)).1 !! i
  = Some (Some (Fulfilled tt)) ->
  refused (DeleteFileDto.bucket file) (DeleteFileDto.key file) = None
  /\ objects (settleAll sch (deletePromises Store_send (this st) data) (remote st)).2
       !! (DeleteFileDto.bucket file, DeleteFileDto.key file) = None.
Proof.
  revert i file.
  pose (J := fun (slots : list (option (Settled unit))) (w : Store) =>
    forall i file,
      data !! i = Some file -> slots !! i = Some (Some (Fulfilled tt)) ->
      refused (DeleteFileDto.bucket file) (DeleteFileDto.key file) = None
      /\ objects w !! (DeleteFileDto.bucket file, DeleteFileDto.key file) = None).
  apply (settleAll_invariant J).
  - intros j p slots w Hp Hj HJ i file Hi.
    unfold deletePromises in Hp. rewrite lookup_map in Hp.
    destruct (data !! j) as [fj|] eqn:Hfj; [|done]. injection Hp as <-.
    unfold deleteCommand. cbn [Store_send].
    destruct (refused (DeleteFileDto.bucket fj) (DeleteFileDto.key fj)) as [e|] eqn:Hr;
      cbn [fst snd set_objects objects].
    + destruct (decide (j = i)) as [->|Hne].
      * rewrite list_lookup_insert_eq by (by eapply lookup_lt_Some). done.
      * rewrite list_lookup_insert_ne by done. by apply HJ.
    + destruct (decide (j = i)) as [->|Hne].
      * intros _. assert (fj = file) as -> by congruence.
        split; [done|]. apply lookup_delete_eq.
      * rewrite list_lookup_insert_ne by done. intros Hs.
        destruct (HJ i file Hi Hs) as [Hok Hgone]. split; [done|].
        rewrite lookup_delete. by case_decide.
  - intros i file _ Hi. apply lookup_replicate in Hi as [? _]. done.
Qed.

(** After a fulfilled [deleteFiles], the object of every request of the
    batch is gone. *)
Lemma delete_fulfilled_gone sch data st i file :
  (onStore (DeleteFiles sch data) st).1 = Fulfilled tt ->
  data !! i = Some file ->
  refused (DeleteFileDto.bucket file) (DeleteFileDto.key file) = None
  /\ objects (remote (onStore (DeleteFiles sch data) st).2)
       !! (DeleteFileDto.bucket file, DeleteFileDto.key file) = None.
Proof.
  intros Hok Hi.
  assert (Hvalues : exists values,
             (Promise_all sch (deletePromises Store_send (this st) data) (remote st)).1
             = Fulfilled values).
  { unfold onStore in Hok. rewrite invoke_run in Hok. cbn [fst awaited] in Hok.
    destruct (Promise_all sch _ _).1 as [values|e]; [by eexists|done]. }
  destruct Hvalues as [values Hvalues].
  pose proof (Promise_all_fulfilled sch _ _ values Hvalues) as Hslots.
  assert (Hslot : (settleAll sch (deletePromises Store_send (this st) data)
                     (remote st)).1 !! i = Some (Some (Fulfilled tt))).
  { assert (Hlt : i < length (deletePromises Store_send (this st) data)).
    { rewrite length_deletePromises. by eapply lookup_lt_Some. }
    destruct (settleAll_total sch _ (remote st) i Hlt) as [o Ho].
    rewrite Ho. rewrite Hslots, lookup_map in Ho.
    destruct (values !! i) as [[]|]; cbn in Ho; congruence. }
  assert (Hremote : remote (onStore (DeleteFiles sch data) st).2
                    = (settleAll sch (deletePromises Store_send (this st) data)
                         (remote st)).2).
  { unfold onStore. rewrite invoke_run. cbn [snd remote awaited].
    apply Promise_all_snd. }
  rewrite Hremote. by apply (delete_removes sch data st i file).
Qed.

(** X17.  On the reference store, after a fulfilled [deleteFiles], a
    download of any object of the batch rejects with the store's
    no-such-key error, under every schedule. *)
Theorem delete_then_download_rejects sch sch' data st file :
  (onStore (DeleteFiles sch data) st).1 = Fulfilled tt ->
  file ∈ data ->
  (onStore
     (DownloadFiles sch'
        [DownloadFileDto.make (DeleteFileDto.bucket file) (DeleteFileDto.key file)])
     (onStore (DeleteFiles sch data) st).2).1
  = Rejected NoSuchKey.
Proof.
  intros Hok Hin. apply list_elem_of_lookup in Hin as [i Hi].
  destruct (delete_fulfilled_gone sch data st i file Hok Hi) as [Hvalid Hgone].
  unfold onStore at 1. rewrite invoke_run.
  cbn [fst awaited downloadPromises readPromises map].
  rewrite Promise_all_singleton. unfold Promise_then, getCommand.
  cbn [DownloadFileDto.bucket DownloadFileDto.key Store_send].
  rewrite Hvalid, Hgone. done.
Qed.

(** While a batch of uploads is handled, the object of every accepted
    request is present. *)
Lemma upload_fulfilled_present sch data st i file :
  (onStore (UploadFiles sch data) st).1 = Fulfilled tt ->
  data !! i = Some file ->
  refused (UploadFileDto.bucket file) (UploadFileDto.key file) = None
  /\ is_Some (objects (remote (onStore (UploadFiles sch data) st).2)
               !! (UploadFileDto.bucket file, UploadFileDto.key file)).
Proof.
  intros Hok Hi. rewrite onStore_upload_remote.
  pose proof (upload_fulfilled_slots sch data st i file Hok Hi) as Hslot.
  revert i file Hi Hslot.
  pose (J := fun (slots : list (option (Settled unit))) (w : Store) =>
    forall i file,
      data !! i = Some file -> slots !! i = Some (Some (Fulfilled tt)) ->
      refused (UploadFileDto.bucket file) (UploadFileDto.key file) = None
      /\ is_Some (objects w !! (UploadFileDto.bucket file, UploadFileDto.key file))).
  apply (settleAll_invariant J).
  - intros j p slots w Hp Hj HJ i file Hi.
    unfold uploadPromises in Hp. rewrite lookup_map in Hp.
    destruct (data !! j) as [fj|] eqn:Hfj; [|done]. injection Hp as <-.
    unfold putCommand. cbn [Store_send].
    destruct (refused (UploadFileDto.bucket fj) (UploadFileDto.key fj)) as [e|] eqn:Hr;
      cbn [fst snd set_objects objects].
    + destruct (decide (j = i)) as [->|Hne].
      * rewrite list_lookup_insert_eq by (by eapply lookup_lt_Some). done.
      * rewrite list_lookup_insert_ne by done. by apply HJ.
    + destruct (decide (j = i)) as [->|Hne].
      * intros _. assert (fj = file) as -> by congruence.
        split; [done|]. rewrite lookup_insert_eq. by eexists.
      * rewrite list_lookup_insert_ne by done. intros Hs.
        destruct (HJ i file Hi Hs) as [Hvalid Hpresent]. split; [done|].
        rewrite lookup_insert. case_decide; [by eexists|done].
  - intros i file _ Hi. apply lookup_replicate in Hi as [? _]. done.
Qed.

Lemma refused_bucket Bucket Key : refused Bucket Key = None -> Bucket <> EmptyString.
Proof. by destruct Bucket. Qed.

(** X18.  On the reference store, upload then list: after a fulfilled
    [uploadFiles], the key of every request of the batch is among the keys
    that [listFiles] returns for its bucket when no prefix is given. *)
Theorem uploaded_keys_listed sch data st file :
  (onStore (UploadFiles sch data) st).1 = Fulfilled tt ->
  file ∈ data ->
  exists keys,
    (onStore (ListFiles (ListFilesDto.make (UploadFileDto.bucket file) None))
       (onStore (UploadFiles sch data) st).2).1 = Fulfilled keys
    /\ UploadFileDto.key file ∈ keys.
Proof.
  intros Hok Hin. apply list_elem_of_lookup in Hin as [i Hi].
  destruct (upload_fulfilled_present sch data st i file Hok Hi) as [Hvalid Hpresent].
  eexists. split.
  - apply listFiles_onStore. cbn. by eapply refused_bucket.
  - apply matchingKeys_elem. by split.
Qed.

(** X19.  On the reference store, delete then list: after a fulfilled
    [deleteFiles], the key of no request of the batch is among the keys that
    [listFiles] returns for its bucket. *)
Theorem deleted_keys_not_listed sch data st file prefix :
  (onStore (DeleteFiles sch data) st).1 = Fulfilled tt ->
  file ∈ data ->
  exists keys,
    (onStore (ListFiles (ListFilesDto.make (DeleteFileDto.bucket file) prefix))
       (onStore (DeleteFiles sch data) st).2).1 = Fulfilled keys
    /\ DeleteFileDto.key file ∉ keys.
Proof.
  intros Hok Hin. apply list_elem_of_lookup in Hin as [i Hi].
  destruct (delete_fulfilled_gone sch data st i file Hok Hi) as [Hvalid Hgone].
  eexists. split.
  - apply listFiles_onStore. cbn. by eapply refused_bucket.
  - rewrite matchingKeys_elem. cbn [ListFilesDto.bucket]. rewrite Hgone.
    intros [[obj Hobj] _]. done.
Qed.

End Composition.

(** ** The further properties at work on sample runs *)

Lemma non_error_logged_without_stack_witness :
  notices (mockRejectedValue (OtherValue "boom")) (mockRejectedUrl (OtherValue "boom"))
    (DeleteFiles reversed [DeleteFileDto.make "b" "k"]) freshState
  = [LogLine "S3StorageService" "Deleting 1 file(s) from S3...";
     ErrorLine "S3StorageService" "Failed to delete files from S3" (Some EmptyString)].
Proof.
  apply (non_error_logged_without_stack
           (mockRejectedValue (OtherValue "boom")) (mockRejectedUrl (OtherValue "boom"))
           (DeleteFiles reversed [DeleteFileDto.make "b" "k"]) freshState "boom").
  vm_compute; reflexivity.
Defined.

Lemma notices_carry_class_name_witness :
  Forall (fun entry => contextOf entry = "S3StorageService")
    (notices Store_send Store_generateSignedUrl
       (UploadFiles inOrder [hello; noKey]) freshState).
Proof.
  apply (notices_carry_class_name Store_send Store_generateSignedUrl
           (UploadFiles inOrder [hello; noKey]) freshState sampleEnv).
  reflexivity.
Defined.

Lemma rejecting_client_rejects_witness :
  (invoke (mockRejectedValue NoSuchKey) (mockRejectedUrl NoSuchKey)
     (DownloadFiles reversed (map downloadOf [hello; untyped])) stocked).1
  = Rejected NoSuchKey
  /\ notices (mockRejectedValue NoSuchKey) (mockRejectedUrl NoSuchKey)
       (DownloadFiles reversed (map downloadOf [hello; untyped])) stocked
     = [LogLine "S3StorageService" "Downloading 2 file(s) from S3...";
        ErrorLine "S3StorageService" "Failed to download files from S3"
          (Some "NoSuchKey: The specified key does not exist.")]
  /\ remote (invoke (mockRejectedValue NoSuchKey) (mockRejectedUrl NoSuchKey)
               (DownloadFiles reversed (map downloadOf [hello; untyped])) stocked).2
     = remote stocked.
Proof.
  apply (rejecting_client_rejects NoSuchKey
           (DownloadFiles reversed (map downloadOf [hello; untyped])) stocked).
  cbn. discriminate.
Defined.

Lemma listFiles_keys_witness :
  (listFiles Store_send (ListFilesDto.make "other" None) library).1
  = Fulfilled ["docs/d.txt"]
  /\ exists start,
      logged (listFiles Store_send (ListFilesDto.make "other" None) library).2
      = (logged library
         ++ [LogLine "S3StorageService" start;
             LogLine "S3StorageService" "Found 1 file(s)."])%list.
Proof.
  apply (listFiles_keys Store_send (ListFilesDto.make "other" None) library
           {| Contents := Some [ {| Key := "docs/d.txt" |} ] |}
           [ {| Key := "docs/d.txt" |} ]).
  - vm_compute; reflexivity.
  - reflexivity.
Defined.

Lemma listFiles_prefix_sent_witness :
  issued (listFiles Store_send (ListFilesDto.make "b" (Some EmptyString)) freshState).2
  = [Sent (ListObjectsV2Command "b" EmptyString)]
  /\ issued (listFiles Store_send (ListFilesDto.make "b" (Some "docs/")) freshState).2
     = [Sent (ListObjectsV2Command "b" "docs/")].
Proof.
  split.
  - apply (proj1 (listFiles_prefix_sent Store_send
                    (ListFilesDto.make "b" (Some EmptyString)) freshState)).
    right; reflexivity.
  - apply (proj2 (listFiles_prefix_sent Store_send
                    (ListFilesDto.make "b" (Some "docs/")) freshState) "docs/").
    + reflexivity.
    + discriminate.
Defined.

Lemma downloadFiles_stream_failure_witness :
  (downloadFiles (mockResolvedValue (withBody brokenStream)) reversed
     [DownloadFileDto.make "b" "f.txt"] freshState).1
  = Rejected resetByPeer
  /\ logged (downloadFiles (mockResolvedValue (withBody brokenStream)) reversed
               [DownloadFileDto.make "b" "f.txt"] freshState).2
     = [LogLine "S3StorageService" "Downloading 1 file(s) from S3...";
        ErrorLine "S3StorageService" "Failed to download files from S3"
          (Some "Error: aborted")].
Proof.
  apply (downloadFiles_stream_failure (mockResolvedValue (withBody brokenStream)) reversed
           (DownloadFileDto.make "b" "f.txt") freshState brokenStream resetByPeer).
  - reflexivity.
  - reflexivity.
Defined.

Lemma downloadFiles_one_buffer_per_request_witness :
  length [Buffer_from "Hello"; Buffer_from "data"] = 2
  /\ (settleAll reversed
        (downloadPromises Store_send (this stocked) (map downloadOf [hello; untyped]))
        (remote stocked)).1
     = [Some (Fulfilled (Buffer_from "Hello")); Some (Fulfilled (Buffer_from "data"))].
Proof.
  apply (downloadFiles_one_buffer_per_request Store_send reversed
           (map downloadOf [hello; untyped]) stocked
           [Buffer_from "Hello"; Buffer_from "data"]).
  vm_compute; reflexivity.
Defined.

Lemma getSignedUrl_expiry_passed_witness :
  issued (getSignedUrl Store_generateSignedUrl
            (GetSignedUrlDto.make "b" "f.txt" (Some 0%Z)) freshState).2
  = [Presigned (s3 (this freshState)) (GetObjectCommand "b" "f.txt") 0].
Proof.
  apply (getSignedUrl_expiry_passed Store_generateSignedUrl
           (GetSignedUrlDto.make "b" "f.txt" (Some 0%Z)) freshState 0%Z).
  reflexivity.
Defined.

Lemma listFiles_lists_bucket_witness :
  exists keys,
    (onStore (ListFiles (ListFilesDto.make "b" (Some "docs/"))) library).1
    = Fulfilled keys
    /\ NoDup keys
    /\ (forall k,
          k ∈ keys <->
          is_Some (objects (remote library) !! ("b", k))
          /\ startsWith "docs/" k = true)
    /\ (Some "docs/" = None \/ Some "docs/" = Some EmptyString ->
        forall k, k ∈ keys <-> is_Some (objects (remote library) !! ("b", k))).
Proof.
  apply (listFiles_lists_bucket (ListFilesDto.make "b" (Some "docs/")) library).
  discriminate.
Defined.

Lemma upload_leaves_other_objects_witness :
  objects (remote (onStore (UploadFiles reversed [first; noKey]) library).2)
    !! ("b", "docs/a.txt")
  = objects (remote library) !! ("b", "docs/a.txt").
Proof.
  apply (upload_leaves_other_objects reversed [first; noKey] library "b" "docs/a.txt").
  intros file Hin.
  apply elem_of_cons in Hin as [->|Hin]; [discriminate|].
  apply elem_of_cons in Hin as [->|Hin]; [discriminate|].
  by apply elem_of_nil in Hin.
Defined.

Lemma accepted_writes_persist_witness :
  (onStore (UploadFiles reversed [hello; noKey]) freshState).1 = Rejected InvalidKey
  /\ exists obj,
      objects (remote (onStore (UploadFiles reversed [hello; noKey]) freshState).2)
        !! ("b", "f.txt") = Some obj
      /\ body obj = Buffer_from "Hello".
Proof.
  split; [vm_compute; reflexivity|].
  apply (accepted_writes_persist reversed [hello; noKey] freshState 0 hello).
  - intros [|[|i]] [|[|j]] fi fj; cbn; intros [= <-] [= <-]; done.
  - reflexivity.
  - reflexivity.
Defined.

Lemma delete_then_download_rejects_witness :
  (onStore
     (DownloadFiles inOrder [DownloadFileDto.make "b" "f.txt"])
     (onStore (DeleteFiles reversed [DeleteFileDto.make "b" "f.txt";
                                     DeleteFileDto.make "b" "absent"]) stocked).2).1
  = Rejected NoSuchKey.
Proof.
  apply (delete_then_download_rejects reversed inOrder
           [DeleteFileDto.make "b" "f.txt"; DeleteFileDto.make "b" "absent"]
           stocked (DeleteFileDto.make "b" "f.txt")).
  - vm_compute; reflexivity.
  - apply list_elem_of_here.
Defined.

Lemma uploaded_keys_listed_witness :
  exists keys,
    (onStore (ListFiles (ListFilesDto.make "b" None))
       (onStore (UploadFiles reversed [hello; untyped]) library).2).1 = Fulfilled keys
    /\ "raw.bin" ∈ keys.
Proof.
  apply (uploaded_keys_listed reversed [hello; untyped] library untyped).
  - vm_compute; reflexivity.
  - apply list_elem_of_further, list_elem_of_here.
Defined.

Lemma deleted_keys_not_listed_witness :
  exists keys,
    (onStore (ListFiles (ListFilesDto.make "b" (Some "docs/")))
       (onStore (DeleteFiles reversed [DeleteFileDto.make "b" "docs/a.txt";
                                       DeleteFileDto.make "b" "absent"]) library).2).1
    = Fulfilled keys
    /\ "docs/a.txt" ∉ keys.
Proof.
  apply (deleted_keys_not_listed reversed
           [DeleteFileDto.make "b" "docs/a.txt"; DeleteFileDto.make "b" "absent"]
           library (DeleteFileDto.make "b" "docs/a.txt") (Some "docs/")).
  - vm_compute; reflexivity.
  - apply list_elem_of_here.
Defined.

(** * The service against the client as declared *)

Section DeclaredFacts.

Context {W : Type}.
Variable send : S3Client -> forall c : Command, W -> Settled (Declared.OutputOf c) * W.
Variable throws : S3Client -> Command -> W -> option Thrown.
Variable notAsyncIterable : Thrown.
Variable generateSignedUrl : S3Client -> Command -> Z -> W -> Settled string * W.

Local Abbreviation throwsIn := (Declared.throwsIn throws).

Lemma reached_all {A} (thrown : A -> option Thrown) data :
  Forall (fun x => thrown x = None) data -> Declared.reached thrown data = data.
Proof. induction 1 as [|x data Hx _ IH]; cbn; [done|]. by rewrite Hx, IH. Qed.

Lemma promised_all {A} (thrown : A -> option Thrown) data :
  Forall (fun x => thrown x = None) data -> Declared.promised thrown data = data.
Proof. induction 1 as [|x data Hx _ IH]; cbn; [done|]. by rewrite Hx, IH. Qed.

Lemma firstThrown_none {A} (thrown : A -> option Thrown) data :
  Forall (fun x => thrown x = None) data -> Declared.firstThrown thrown data = None.
Proof. induction 1 as [|x data Hx _ IH]; cbn; [done|]. by rewrite Hx. Qed.

(** A plain-arrow [data.map] over a callback that only calls [send]:
    promises for the requests before the first throw, the journal up to and
    including the throwing call, and nothing else changed. *)
Lemma Array_map_until_issue {A B} (callback : A -> Async (W := W) (Promise (W := W) B))
    (cmd : A -> Command) (g : S3StorageService -> A -> Promise (W := W) B) :
  (forall x st,
      callback x st =
      match throwsIn st (cmd x) with
      | Some e => (Rejected e, add_issued (Sent (cmd x)) st)
      | None => (Fulfilled (g (this st) x), add_issued (Sent (cmd x)) st)
      end) ->
  forall data st,
    Declared.Array_map_until callback data st =
    (map (g (this st)) (Declared.promised (fun x => throwsIn st (cmd x)) data),
     Declared.firstThrown (fun x => throwsIn st (cmd x)) data,
     {| this := this st; remote := remote st; logged := logged st;
        issued :=
          issued st
          ++ map (fun x => Sent (cmd x))
               (Declared.reached (fun x => throwsIn st (cmd x)) data) |}).
Proof.
  intros Hcb data. induction data as [|x data IH]; intros st.
  - destruct st. cbn. by rewrite app_nil_r.
  - cbn [Declared.Array_map_until Declared.promised Declared.firstThrown Declared.reached].
    rewrite Hcb. destruct (throwsIn st (cmd x)) as [e|] eqn:Hx.
    + done.
    + rewrite IH. cbn. unfold Declared.throwsIn in *. cbn.
      by rewrite <- app_assoc.
Qed.

(** The same, followed by [await Promise.all]. *)
Lemma await_all_of_map_run {A B} sch
    (callback : A -> Async (W := W) (Promise (W := W) B))
    (cmd : A -> Command) (g : S3StorageService -> A -> Promise (W := W) B) data st :
  (forall x st,
      callback x st =
      match throwsIn st (cmd x) with
      | Some e => (Rejected e, add_issued (Sent (cmd x)) st)
      | None => (Fulfilled (g (this st) x), add_issued (Sent (cmd x)) st)
      end) ->
  let thrown := fun x => throwsIn st (cmd x) in
  let promises := map (g (this st)) (Declared.promised thrown data) in
  Declared.await_all_of_map sch callback data st =
  (match Declared.firstThrown thrown data with
   | Some e => Rejected e
   | None => (Promise_all sch promises (remote st)).1
   end,
   {| this := this st;
      remote := match Declared.firstThrown thrown data with
                | Some _ => (settleAll sch promises (remote st)).2
                | None => (Promise_all sch promises (remote st)).2
                end;
      logged := logged st;
      issued := issued st ++ map (fun x => Sent (cmd x)) (Declared.reached thrown data) |}).
Proof.
  intros Hcb thrown promises. unfold Declared.await_all_of_map.
  rewrite (Array_map_until_issue callback cmd g Hcb). fold thrown. fold promises.
  destruct (Declared.firstThrown thrown data) as [e|]; [done|].
  unfold await. cbn. by destruct (Promise_all sch promises (remote st)).
Qed.

Lemma uploadFiles_declared_run sch data st :
  let thrown := fun file => throwsIn st (putCommand file) in
  let promises :=
    map (fun file => send (s3 (this st)) (putCommand file) : Promise unit)
      (Declared.promised thrown data) in
  let outcome :=
    match Declared.firstThrown thrown data with
    | Some e => Rejected e
    | None => Settled_bind (Promise_all sch promises (remote st)).1 (fun _ => Fulfilled tt)
    end in
  Declared.uploadFiles send throws sch data st =
  (outcome,
   {| this := this st;
      remote := match Declared.firstThrown thrown data with
                | Some _ => (settleAll sch promises (remote st)).2
                | None => (Promise_all sch promises (remote st)).2
                end;
      logged :=
        logged st
        ++ LogLine (context (logger (this st))) (startNotice (UploadFiles sch data))
           :: closing (UploadFiles sch data) (context (logger (this st))) outcome;
      issued :=
        issued st
        ++ map (fun file => Sent (putCommand file)) (Declared.reached thrown data) |}).
Proof.
  intros thrown promises outcome. subst outcome promises thrown.
  unfold Declared.uploadFiles, try_catch. unfold bind at 1. cbn [logger_log].
  unfold bind at 1.
  rewrite (await_all_of_map_run sch _ putCommand
             (fun self file => send (s3 self) (putCommand file) : Promise unit));
    [|done].
  cbv zeta. unfold Declared.throwsIn. cbn [this remote logged issued add_logged].
  destruct (Declared.firstThrown _ data) as [e|].
  - unfold bind, logger_error, throw, add_logged. cbn. by rewrite <- !app_assoc.
  - destruct (Promise_all sch _ (remote st)) as [[values|e] w'];
      unfold bind, logger_log, logger_error, throw, add_logged; cbn;
      by rewrite <- !app_assoc.
Qed.

Lemma deleteFiles_declared_run sch data st :
  let thrown := fun file => throwsIn st (deleteCommand file) in
  let promises :=
    map (fun file => send (s3 (this st)) (deleteCommand file) : Promise unit)
      (Declared.promised thrown data) in
  let outcome :=
    match Declared.firstThrown thrown data with
    | Some e => Rejected e
    | None => Settled_bind (Promise_all sch promises (remote st)).1 (fun _ => Fulfilled tt)
    end in
  Declared.deleteFiles send throws sch data st =
  (outcome,
   {| this := this st;
      remote := match Declared.firstThrown thrown data with
                | Some _ => (settleAll sch promises (remote st)).2
                | None => (Promise_all sch promises (remote st)).2
                end;
      logged :=
        logged st
        ++ LogLine (context (logger (this st))) (startNotice (DeleteFiles sch data))
           :: closing (DeleteFiles sch data) (context (logger (this st))) outcome;
      issued :=
        issued st
        ++ map (fun file => Sent (deleteCommand file)) (Declared.reached thrown data) |}).
Proof.
  intros thrown promises outcome. subst outcome promises thrown.
  unfold Declared.deleteFiles, try_catch. unfold bind at 1. cbn [logger_log].
  unfold bind at 1.
  rewrite (await_all_of_map_run sch _ deleteCommand
             (fun self file => send (s3 self) (deleteCommand file) : Promise unit));
    [|done].
  cbv zeta. unfold Declared.throwsIn. cbn [this remote logged issued add_logged].
  destruct (Declared.firstThrown _ data) as [e|].
  - unfold bind, logger_error, throw, add_logged. cbn. by rewrite <- !app_assoc.
  - destruct (Promise_all sch _ (remote st)) as [[values|e] w'];
      unfold bind, logger_log, logger_error, throw, add_logged; cbn;
      by rewrite <- !app_assoc.
Qed.

(** A callback that never throws and only adds to the journal. *)
Lemma Array_map_issue_in {A B} (callback : A -> Async (W := W) B)
    (g : State (W := W) -> A -> B) (r : A -> Request) :
  (forall x st, callback x st = (Fulfilled (g st x), add_issued (r x) st)) ->
  (forall x st r', g (add_issued r' st) x = g st x) ->
  forall data st,
    Array_map callback data st =
    (Fulfilled (map (g st) data),
     {| this := this st; remote := remote st; logged := logged st;
        issued := issued st ++ map r data |}).
Proof.
  intros Hcb Hg data. induction data as [|x data IH]; intros st.
  - destruct st. cbn. by rewrite app_nil_r.
  - cbn [Array_map]. unfold bind at 1. rewrite Hcb.
    unfold bind at 1. rewrite IH. unfold ret. cbn. rewrite <- app_assoc.
    assert (Hmap : map (g (add_issued (r x) st)) data = map (g st) data).
    { apply map_ext. intros y. apply Hg. }
    by rewrite Hmap.
Qed.

Lemma downloadFiles_declared_run sch data st :
  let promises := map (Declared.downloadPromise send throws notAsyncIterable st) data in
  Declared.downloadFiles send throws notAsyncIterable sch data st =
  ((Promise_all sch promises (remote st)).1,
   {| this := this st;
      remote := (Promise_all sch promises (remote st)).2;
      logged :=
        logged st
        ++ LogLine (context (logger (this st))) (startNotice (DownloadFiles sch data))
           :: closing (DownloadFiles sch data) (context (logger (this st)))
                (Promise_all sch promises (remote st)).1;
      issued := issued st ++ map (fun file => Sent (getCommand file)) data |}).
Proof.
  intros promises. subst promises.
  unfold Declared.downloadFiles, try_catch at 1. unfold bind at 1. cbn [logger_log].
  unfold bind at 1.
  rewrite (Array_map_issue_in _ (Declared.downloadPromise send throws notAsyncIterable)
             (fun file => Sent (getCommand file))).
  - cbn [this remote logged issued add_logged].
    assert (Hsame : map (Declared.downloadPromise send throws notAsyncIterable
                           (add_logged
                              (LogLine (context (logger (this st)))
                                 ("Downloading " +:+ pretty (length data)
                                  +:+ " file(s) from S3...")) st)) data
                    = map (Declared.downloadPromise send throws notAsyncIterable st) data).
    { apply map_ext. intros file. done. }
    rewrite Hsame.
    generalize (Promise_all sch
                  (map (Declared.downloadPromise send throws notAsyncIterable st) data)).
    intros P. unfold await, bind, logger_error, throw, add_logged, set_remote. cbn.
    destruct (P (remote st)) as [[values|e] w']; cbn; by rewrite <- ?app_assoc.
  - intros file st'. unfold try_catch, bind, Declared.s3_send, ret,
      Declared.downloadPromise, Declared.throwsIn, getCommand.
    by destruct (throws _ _ _).
  - done.
Qed.

Lemma listFiles_declared_run data st :
  let awaited :=
    match throwsIn st (listCommand data) with
    | Some e => (Rejected e, remote st)
    | None =>
        let r := send (s3 (this st)) (listCommand data) (remote st) in
        (Settled_bind r.1
           (fun response =>
              Fulfilled
                match Contents response with
                | Some contents => map Key contents
                | None => []
                end),
         r.2)
    end in
  Declared.listFiles send throws data st =
  (awaited.1,
   {| this := this st;
      remote := awaited.2;
      logged :=
        logged st
        ++ LogLine (context (logger (this st))) (startNotice (ListFiles data))
           :: closing (ListFiles data) (context (logger (this st))) awaited.1;
      issued := issued st ++ [Sent (listCommand data)] |}).
Proof.
  intros awaited. subst awaited.
  unfold Declared.listFiles, try_catch, bind, await, Declared.s3_send, logger_log,
    logger_error, throw, bind, ret, add_logged, set_remote, add_issued,
    Declared.throwsIn. cbn.
  fold (listCommand data).
  destruct (throws (s3 (this st)) (listCommand data) (remote st)) as [e|]; cbn.
  - by rewrite <- !app_assoc.
  - destruct (send (s3 (this st)) (listCommand data) (remote st)) as [[response|e] w'];
      cbn; by rewrite <- !app_assoc.
Qed.

Lemma Promise_all_of_fulfilled {A} sch (promises : list (Promise (W := W) A)) w values :
  (settleAll sch promises w).1 = map (fun v => Some (Fulfilled v)) values ->
  (Promise_all sch promises w).1 = Fulfilled values.
Proof.
  intros Hslots. rewrite Promise_all_fst, Hslots.
  by rewrite firstRejected_fulfilled, fulfilledValues_map.
Qed.

(** X5.  Fan-out as far as [send] lets it go.  [uploadFiles] and
    [deleteFiles] hand to the client one command per request, in the order
    of the batch, up to and including the first request for which [send]
    throws, and none after it; when [send] throws for no request, that is
    exactly one command per request, whatever the promises settle to.
    [downloadFiles], whose callback is [async], hands over one get-object
    command per request in every case. *)
Theorem requests_sent_until_throw sch (st : State (W := W)) :
  (forall data,
      issued (Declared.uploadFiles send throws sch data st).2 =
      (issued st
       ++ map (fun file => Sent (putCommand file))
            (Declared.reached (fun file => throwsIn st (putCommand file)) data))%list)
  /\ (forall data,
        issued (Declared.deleteFiles send throws sch data st).2 =
        (issued st
         ++ map (fun file => Sent (deleteCommand file))
              (Declared.reached (fun file => throwsIn st (deleteCommand file)) data))%list)
  /\ (forall data,
        issued (Declared.downloadFiles send throws notAsyncIterable sch data st).2 =
        (issued st ++ map (fun file => Sent (getCommand file)) data)%list)
  /\ (forall data,
        Forall (fun file => throwsIn st (putCommand file) = None) data ->
        issued (Declared.uploadFiles send throws sch data st).2 =
        (issued st ++ map (fun file => Sent (putCommand file)) data)%list)
  /\ (forall data,
        Forall (fun file => throwsIn st (deleteCommand file) = None) data ->
        issued (Declared.deleteFiles send throws sch data st).2 =
        (issued st ++ map (fun file => Sent (deleteCommand file)) data)%list).
Proof.
  repeat split; intros data.
  - by rewrite uploadFiles_declared_run.
  - by rewrite deleteFiles_declared_run.
  - by rewrite downloadFiles_declared_run.
  - intros Hnone. rewrite uploadFiles_declared_run. cbn [snd issued].
    by rewrite reached_all.
  - intros Hnone. rewrite deleteFiles_declared_run. cbn [snd issued].
    by rewrite reached_all.
Qed.

(** X20.  A call of [send] that throws instead of returning a promise is
    caught like a rejection: [uploadFiles], [deleteFiles] and [listFiles]
    reject with the thrown value as it is and log, after the start notice,
    one error line with its stack. *)
Theorem synchronous_throw_rejects (st : State (W := W)) e :
  (forall sch data,
      Declared.firstThrown (fun file => throwsIn st (putCommand file)) data = Some e ->
      (Declared.uploadFiles send throws sch data st).1 = Rejected e
      /\ logged (Declared.uploadFiles send throws sch data st).2 =
         (logged st
          ++ [LogLine (context (logger (this st))) (startNotice (UploadFiles sch data));
              ErrorLine (context (logger (this st))) "Failed to upload files to S3"
                (stackTrace e)])%list)
  /\ (forall sch data,
        Declared.firstThrown (fun file => throwsIn st (deleteCommand file)) data = Some e ->
        (Declared.deleteFiles send throws sch data st).1 = Rejected e
        /\ logged (Declared.deleteFiles send throws sch data st).2 =
           (logged st
            ++ [LogLine (context (logger (this st))) (startNotice (DeleteFiles sch data));
                ErrorLine (context (logger (this st))) "Failed to delete files from S3"
                  (stackTrace e)])%list)
  /\ (forall data,
        throwsIn st (listCommand data) = Some e ->
        (Declared.listFiles send throws data st).1 = Rejected e
        /\ logged (Declared.listFiles send throws data st).2 =
           (logged st
            ++ [LogLine (context (logger (this st))) (startNotice (ListFiles data));
                ErrorLine (context (logger (this st))) "Failed to list files from S3"
                  (stackTrace e)])%list).
Proof.
  split; [|split].
  - intros sch data Hthrow. rewrite uploadFiles_declared_run. cbn [fst snd logged].
    by rewrite Hthrow.
  - intros sch data Hthrow. rewrite deleteFiles_declared_run. cbn [fst snd logged].
    by rewrite Hthrow.
  - intros data Hthrow. rewrite listFiles_declared_run. cbn [fst snd logged].
    by rewrite Hthrow.
Qed.

(** X21.  A get-object answer without [Body]: the cast does nothing, the
    [for await] loop throws the engine's error for a value that is not async
    iterable, and a single download rejects with that error and logs one
    error line with its stack. *)
Theorem missing_body_rejects sch file (st : State (W := W)) :
  throwsIn st (getCommand file) = None ->
  (send (s3 (this st)) (getCommand file) (remote st)).1
  = Fulfilled {| Declared.Body := None |} ->
  (Declared.downloadFiles send throws notAsyncIterable sch [file] st).1
  = Rejected notAsyncIterable
  /\ logged (Declared.downloadFiles send throws notAsyncIterable sch [file] st).2 =
     (logged st
      ++ [LogLine (context (logger (this st))) "Downloading 1 file(s) from S3...";
          ErrorLine (context (logger (this st))) "Failed to download files from S3"
            (stackTrace notAsyncIterable)])%list.
Proof.
  intros Hthrow Hsend.
  assert (Hawait :
    (Promise_all sch [Declared.downloadPromise send throws notAsyncIterable st file]
       (remote st)).1 = Rejected notAsyncIterable).
  { rewrite Promise_all_singleton. unfold Declared.downloadPromise. rewrite Hthrow.
    unfold Promise_then. destruct (send _ _ _) as [o w']. cbn in Hsend. subst o.
    done. }
  rewrite downloadFiles_declared_run. cbn [fst snd logged map]. by rewrite Hawait.
Qed.

(** X1.  All or error, the good side: when every remote call of a method
    goes well (no call of [send] throws, every promise of the SDK is
    fulfilled, and for [downloadFiles] every answer has a body stream that
    ends normally), the method is fulfilled, and it logs its start notice
    followed by its completion notice (by nothing for [downloadFiles]) and
    no error line. *)
Theorem all_goes_well_fulfilled {R} (call : Call R) (st : State (W := W)) :
  Declared.allGoesWell send throws generateSignedUrl call st ->
  exists result,
    (Declared.invoke send throws notAsyncIterable generateSignedUrl call st).1
    = Fulfilled result
    /\ logged (Declared.invoke send throws notAsyncIterable generateSignedUrl call st).2 =
       (logged st
        ++ LogLine (context (logger (this st))) (startNotice call)
           :: match completionNotice call result with
              | Some message => [LogLine (context (logger (this st))) message]
              | None => []
              end)%list.
Proof.
  destruct call as [sch data|sch data|sch data|data|data];
    cbn [Declared.allGoesWell Declared.invoke].
  - intros [Hnone [answers Hslots]]. exists tt.
    rewrite uploadFiles_declared_run. cbn [fst snd logged].
    rewrite (firstThrown_none _ _ Hnone), (promised_all _ _ Hnone).
    by rewrite (Promise_all_of_fulfilled sch _ _ answers Hslots).
  - intros [Hnone (streams & Hslots & Hok)].
    exists (map (fun stream => Buffer_concat (emitted stream)) streams).
    rewrite downloadFiles_declared_run. cbn [fst snd logged].
    assert (Hpromises :
      map (Declared.downloadPromise send throws notAsyncIterable st) data
      = map (fun p => Promise_then p (Declared.readAll notAsyncIterable))
          (map (fun file => send (s3 (this st)) (getCommand file)
                            : Promise Declared.GetObjectCommandOutput) data)).
    { rewrite map_map. apply map_ext_Forall.
      eapply Forall_impl; [exact Hnone|]. intros file Hfile. cbn beta.
      unfold Declared.downloadPromise. by rewrite Hfile. }
    assert (Hall :
      (Promise_all sch
         (map (Declared.downloadPromise send throws notAsyncIterable st) data)
         (remote st)).1
      = Fulfilled (map (fun stream => Buffer_concat (emitted stream)) streams)).
    { apply Promise_all_of_fulfilled. rewrite Hpromises, settleAll_then. cbn [fst].
      rewrite Hslots, !map_map. apply map_ext_Forall.
      eapply Forall_impl; [exact Hok|]. intros stream Hs. cbn.
      unfold Declared.readAll, for_await_push. cbn. rewrite Hs. cbn.
      by rewrite push_each_app. }
    by rewrite Hall.
  - intros [Hnone [answers Hslots]]. exists tt.
    rewrite deleteFiles_declared_run. cbn [fst snd logged].
    rewrite (firstThrown_none _ _ Hnone), (promised_all _ _ Hnone).
    by rewrite (Promise_all_of_fulfilled sch _ _ answers Hslots).
  - intros [Hnone [response Hsend]]. eexists.
    rewrite listFiles_declared_run. cbn [fst snd logged]. rewrite Hnone. cbn [fst snd].
    rewrite Hsend. cbn. done.
  - intros [url Hurl]. exists url.
    change (getSignedUrl generateSignedUrl data st)
      with (invoke (fun _ c w => (Rejected (OtherValue EmptyString), w))
              generateSignedUrl (GetSignedUrl data) st).
    rewrite invoke_run. cbn [fst snd logged awaited]. by rewrite Hurl.
Qed.

End DeclaredFacts.

(** ** The two embeddings agree *)

Section Agreement.

Context {W : Type}.

Lemma handleAll_ext {A} (promises promises' : list (Promise (W := W) A)) order slots w :
  Forall2 (fun p p' => forall w, p w = p' w) promises promises' ->
  handleAll promises order slots w = handleAll promises' order slots w.
Proof.
  intros Hext. revert slots w.
  induction order as [|i order IH]; intros slots w; [done|]. cbn [handleAll].
  destruct (promises !! i) as [p|] eqn:Hp.
  - destruct (Forall2_lookup_l _ _ _ _ _ Hext Hp) as (p' & Hp' & Heq).
    unfold Promise in *. rewrite Hp'.
    destruct (slots !! i) as [[o|]|]; try apply IH.
    rewrite Heq. destruct (p' w). apply IH.
  - assert (Hp' : promises' !! i = None).
    { apply lookup_ge_None. apply lookup_ge_None in Hp.
      pose proof (Forall2_length _ _ _ Hext) as Hlen. unfold Promise in *. lia. }
    unfold Promise in *. rewrite Hp'. apply IH.
Qed.

Lemma Promise_all_ext {A} sch (promises promises' : list (Promise (W := W) A)) w :
  Forall2 (fun p p' => forall w, p w = p' w) promises promises' ->
  Promise_all sch promises w = Promise_all sch promises' w.
Proof.
  intros Hext. unfold Promise_all, settleAll.
  pose proof (Forall2_length _ _ _ Hext) as Hlen. unfold Promise in *.
  rewrite Hlen. by rewrite (handleAll_ext _ _ _ _ _ Hext).
Qed.

Variable send : S3Client -> forall c : Command, W -> Settled (OutputOf c) * W.
Variable generateSignedUrl : S3Client -> Command -> Z -> W -> Settled string * W.
Variable notAsyncIterable : Thrown.

(** Against a client that never throws and whose get-object answers have
    their [Body], the declared embedding of every method is the embedding
    of the first part. *)
Lemma declared_agrees {R} (call : Call R) (st : State (W := W)) :
  Declared.invoke (declare send) neverThrows notAsyncIterable generateSignedUrl call st
  = invoke send generateSignedUrl call st.
Proof.
  rewrite invoke_run.
  destruct call as [sch data|sch data|sch data|data|data];
    cbn [Declared.invoke awaited requestsOf].
  - rewrite uploadFiles_declared_run. cbv zeta.
    assert (Hnone : Forall (fun file : UploadFileDto.t =>
                              Declared.throwsIn (W := W) neverThrows st (putCommand file)
                              = None) data)
      by (by apply Forall_forall).
    by rewrite (firstThrown_none _ _ Hnone), (promised_all _ _ Hnone),
         (reached_all _ _ Hnone).
  - rewrite downloadFiles_declared_run. cbv zeta.
    assert (Hext :
      Promise_all sch
        (map (Declared.downloadPromise (declare send) neverThrows notAsyncIterable st) data)
        (remote st)
      = Promise_all sch (downloadPromises send (this st) data) (remote st)).
    { apply Promise_all_ext. unfold downloadPromises, readPromises. rewrite map_map.
      apply Forall2_fmap, Forall_Forall2_diag, Forall_forall.
      intros file _ w. unfold Declared.downloadPromise. cbn.
      unfold Promise_then, readAll, Declared.readAll.
      by destruct (send (s3 (this st)) (getCommand file) w) as [[response|e] w']. }
    by rewrite Hext.
  - rewrite deleteFiles_declared_run. cbv zeta.
    assert (Hnone : Forall (fun file : DeleteFileDto.t =>
                              Declared.throwsIn (W := W) neverThrows st (deleteCommand file)
                              = None) data)
      by (by apply Forall_forall).
    by rewrite (firstThrown_none _ _ Hnone), (promised_all _ _ Hnone),
         (reached_all _ _ Hnone).
  - by rewrite listFiles_declared_run.
  - change (getSignedUrl generateSignedUrl data st)
      with (invoke send generateSignedUrl (GetSignedUrl data) st).
    by rewrite invoke_run.
Qed.

End Agreement.

(** ** The declared client at work on sample runs *)

Lemma all_goes_well_fulfilled_witness :
  exists result,
    (Declared.invoke (declare Store_send) neverThrows engineTypeError
       Store_generateSignedUrl
       (DownloadFiles reversed (map downloadOf [hello; untyped])) stocked).1
    = Fulfilled result
    /\ logged (Declared.invoke (declare Store_send) neverThrows engineTypeError
                 Store_generateSignedUrl
                 (DownloadFiles reversed (map downloadOf [hello; untyped])) stocked).2
       = (logged stocked
          ++ LogLine "S3StorageService"
               (startNotice (DownloadFiles reversed (map downloadOf [hello; untyped])))
             :: match completionNotice
                        (DownloadFiles reversed (map downloadOf [hello; untyped])) result
                with
                | Some message => [LogLine "S3StorageService" message]
                | None => []
                end)%list.
Proof.
  apply (all_goes_well_fulfilled (declare Store_send) neverThrows engineTypeError
           Store_generateSignedUrl
           (DownloadFiles reversed (map downloadOf [hello; untyped])) stocked).
  split; [by repeat constructor|].
  exists stockedStreams. split; [vm_compute; reflexivity|by repeat constructor].
Defined.

(** Three requests, [send] throws on the second: two commands are sent. *)
Lemma requests_sent_until_throw_witness :
  issued (Declared.uploadFiles (declare Store_send) (throwsOnKey "raw.bin" syncFailure)
            inOrder [hello; untyped; first] freshState).2
  = [Sent (putCommand hello); Sent (putCommand untyped)]
  /\ issued (Declared.uploadFiles (declare Store_send) neverThrows
               inOrder [hello; untyped; first] freshState).2
     = [Sent (putCommand hello); Sent (putCommand untyped); Sent (putCommand first)].
Proof.
  split.
  - exact (proj1 (requests_sent_until_throw (declare Store_send)
                    (throwsOnKey "raw.bin" syncFailure) engineTypeError inOrder freshState)
             [hello; untyped; first]).
  - apply (proj1 (proj2 (proj2 (proj2
             (requests_sent_until_throw (declare Store_send) neverThrows engineTypeError
                inOrder freshState)))) [hello; untyped; first]).
    by repeat constructor.
Defined.

Lemma synchronous_throw_rejects_witness :
  (Declared.uploadFiles (declare Store_send) (throwsOnKey "raw.bin" syncFailure)
     reversed [hello; untyped; first] freshState).1 = Rejected syncFailure
  /\ logged (Declared.uploadFiles (declare Store_send) (throwsOnKey "raw.bin" syncFailure)
               reversed [hello; untyped; first] freshState).2
     = [LogLine "S3StorageService" "Uploading 3 file(s) to S3...";
        ErrorLine "S3StorageService" "Failed to upload files to S3"
          (Some "Error: client destroyed")].
Proof.
  apply (proj1 (synchronous_throw_rejects (declare Store_send)
                  (throwsOnKey "raw.bin" syncFailure) freshState syncFailure)
           reversed [hello; untyped; first]).
  reflexivity.
Defined.

Lemma missing_body_rejects_witness :
  (Declared.downloadFiles (mockResolvedTo withoutBody) neverThrows engineTypeError
     inOrder [DownloadFileDto.make "b" "f.txt"] freshState).1
  = Rejected engineTypeError
  /\ logged (Declared.downloadFiles (mockResolvedTo withoutBody) neverThrows
               engineTypeError inOrder [DownloadFileDto.make "b" "f.txt"] freshState).2
     = [LogLine "S3StorageService" "Downloading 1 file(s) from S3...";
        ErrorLine "S3StorageService" "Failed to download files from S3"
          (Some "TypeError: stream is not async iterable")].
Proof.
  apply (missing_body_rejects (mockResolvedTo withoutBody) neverThrows engineTypeError
           inOrder (DownloadFileDto.make "b" "f.txt") freshState); reflexivity.
Defined.
